(** * gp-sphinx.py: the reStructuredText generator of the gpeasant database

    A shallow embedding of [GPeasantSphinx] (src/gp-sphinx.py) and the
    properties of the documents it writes.

    - Python [str] is a list of Unicode code points ([pystr]); the library
      functions the script calls ([str.split], [str.join], [str.replace],
      [str.splitlines], [str.format], [textwrap.indent], [textwrap.dedent])
      are written out over that type.
    - Python [int] is [Z]; [None] is the [None] of an [option].
    - The MariaDB cursor is a record of tables, and each SQL statement of the
      script is a function over that record.
    - The output tree is a partial map from paths to nodes, threaded through
      a state-and-error monad. *)

From Stdlib Require Import String Ascii.
From Stdlib Require Import List ZArith NArith Bool Lia.
From Stdlib Require Import Sorting.Sorted Sorting.Permutation.
Import ListNotations.

Local Open Scope N_scope.
Local Open Scope list_scope.

(* ================================================================== *)
(** * Python strings *)
(* ================================================================== *)

Module Py.

(** A Python [str]: a sequence of code points. *)
Definition pystr := list N.

(** Source literals are UTF-8 text; [decode_utf8] turns their bytes into
    code points (1- to 4-byte sequences). *)
Fixpoint decode_utf8 (bs : list N) : pystr :=
  match bs with
  | [] => []
  | b0 :: r0 =>
      if b0 <? 128 then b0 :: decode_utf8 r0
      else if b0 <? 224 then
        match r0 with
        | b1 :: r1 => ((b0 - 192) * 64 + (b1 - 128)) :: decode_utf8 r1
        | _ => []
        end
      else if b0 <? 240 then
        match r0 with
        | b1 :: b2 :: r2 =>
            ((b0 - 224) * 4096 + (b1 - 128) * 64 + (b2 - 128))
              :: decode_utf8 r2
        | _ => []
        end
      else
        match r0 with
        | b1 :: b2 :: b3 :: r3 =>
            ((b0 - 240) * 262144 + (b1 - 128) * 4096
             + (b2 - 128) * 64 + (b3 - 128)) :: decode_utf8 r3
        | _ => []
        end
  end.

(** [u "text"] is the Python literal ['text']. *)
Definition u (s : string) : pystr :=
  decode_utf8 (map N_of_ascii (list_ascii_of_string s)).

Definition LF : N := 10.
Definition CR : N := 13.
Definition SP : N := 32.

(** [str.isspace] on one code point (CPython's [_PyUnicode_IsWhitespace]). *)
Definition isspace (c : N) : bool :=
  ((9 <=? c) && (c <=? 13)) || ((28 <=? c) && (c <=? 32))
  || (c =? 133) || (c =? 160) || (c =? 5760)
  || ((8192 <=? c) && (c <=? 8202))
  || (c =? 8232) || (c =? 8233) || (c =? 8239) || (c =? 8287)
  || (c =? 12288).

(** The line boundaries of [str.splitlines] (CPython's
    [_PyUnicode_IsLinebreak]). *)
Definition is_linebreak (c : N) : bool :=
  ((10 <=? c) && (c <=? 13)) || ((28 <=? c) && (c <=? 30))
  || (c =? 133) || (c =? 8232) || (c =? 8233).

(** [s.isspace()] for a non-empty [s]; [not line.strip()] for a line. *)
Definition blank (s : pystr) : bool := forallb isspace s.

Definition nonempty (s : pystr) : bool :=
  match s with [] => false | _ => true end.

Fixpoint eqb (a b : pystr) : bool :=
  match a, b with
  | [], [] => true
  | x :: a', y :: b' => (x =? y) && eqb a' b'
  | _, _ => false
  end.

(** [s.splitlines(True)]: the lines of [s], each with its line ending;
    ["\r\n"] is one ending.  [cur] is the current line, reversed. *)
Fixpoint splitlines_from (cur : pystr) (s : pystr) : list pystr :=
  match s with
  | [] => if nonempty cur then [rev cur] else []
  | c :: r =>
      if c =? CR then
        match r with
        | c' :: r' =>
            if c' =? LF then rev (c' :: c :: cur) :: splitlines_from [] r'
            else rev (c :: cur) :: splitlines_from [] r
        | [] => rev (c :: cur) :: splitlines_from [] r
        end
      else if is_linebreak c then rev (c :: cur) :: splitlines_from [] r
      else splitlines_from (c :: cur) r
  end.

Definition splitlines (s : pystr) : list pystr := splitlines_from [] s.

(** [s.split()]: the maximal runs of non-whitespace code points. *)
Fixpoint split_from (cur : pystr) (s : pystr) : list pystr :=
  match s with
  | [] => if nonempty cur then [rev cur] else []
  | c :: r =>
      if isspace c then
        (if nonempty cur then rev cur :: split_from [] r
         else split_from [] r)
      else split_from (c :: cur) r
  end.

Definition split (s : pystr) : list pystr := split_from [] s.

(** [sep.join(xs)]. *)
Fixpoint join (sep : pystr) (xs : list pystr) : pystr :=
  match xs with
  | [] => []
  | [x] => x
  | x :: rest => x ++ sep ++ join sep rest
  end.

(** [s.replace(old, new)] for a one-character [old]. *)
Fixpoint replace (old : N) (new : pystr) (s : pystr) : pystr :=
  match s with
  | [] => []
  | c :: r => if c =? old then new ++ replace old new r
              else c :: replace old new r
  end.

(** [s.split(sep)] for a one-character [sep] (always at least one field). *)
Fixpoint split_on_from (sep : N) (cur : pystr) (s : pystr) : list pystr :=
  match s with
  | [] => [rev cur]
  | c :: r => if c =? sep then rev cur :: split_on_from sep [] r
              else split_on_from sep (c :: cur) r
  end.

Definition split_on (sep : N) (s : pystr) : list pystr :=
  split_on_from sep [] s.

(** [str(n)] for an [int]. *)
Fixpoint uint_chars (d : Decimal.uint) : pystr :=
  match d with
  | Decimal.Nil => []
  | Decimal.D0 d' => 48 :: uint_chars d'
  | Decimal.D1 d' => 49 :: uint_chars d'
  | Decimal.D2 d' => 50 :: uint_chars d'
  | Decimal.D3 d' => 51 :: uint_chars d'
  | Decimal.D4 d' => 52 :: uint_chars d'
  | Decimal.D5 d' => 53 :: uint_chars d'
  | Decimal.D6 d' => 54 :: uint_chars d'
  | Decimal.D7 d' => 55 :: uint_chars d'
  | Decimal.D8 d' => 56 :: uint_chars d'
  | Decimal.D9 d' => 57 :: uint_chars d'
  end.

Definition str_int (z : Z) : pystr :=
  match Z.to_int z with
  | Decimal.Pos d => uint_chars d
  | Decimal.Neg d => 45 :: uint_chars d
  end.

(** Values that reach [str()] and [str.format] in the script. *)
Inductive value :=
| VNone
| VStr (s : pystr)
| VInt (z : Z).

(** [str(v)]. *)
Definition str (v : value) : pystr :=
  match v with
  | VNone => u "None"
  | VStr s => s
  | VInt z => str_int z
  end.

(** Truth value of an optional string: [None] and [''] are false. *)
Definition truthy (o : option pystr) : bool :=
  match o with
  | None => false
  | Some s => nonempty s
  end.

(** ** textwrap *)

(** [textwrap.indent(text, prefix)]: [prefix] goes in front of every line
    that does not consist solely of whitespace. *)
Definition indent (text prefix : pystr) : pystr :=
  concat (map (fun line => if blank line then line else prefix ++ line)
              (splitlines text)).

Definition is_sp_tab (c : N) : bool := (c =? 32) || (c =? 9).

Fixpoint leading_ws (s : pystr) : pystr :=
  match s with
  | c :: r => if is_sp_tab c then c :: leading_ws r else []
  | [] => []
  end.

Fixpoint common_prefix (a b : pystr) : pystr :=
  match a, b with
  | x :: a', y :: b' => if x =? y then x :: common_prefix a' b' else []
  | _, _ => []
  end.

(** The margin [textwrap.dedent] removes: the longest run of spaces and tabs
    that starts every line holding something else. *)
Fixpoint margin_of (lines : list pystr) : option pystr :=
  match lines with
  | [] => None
  | l :: rest =>
      if forallb is_sp_tab l then margin_of rest
      else match margin_of rest with
           | None => Some (leading_ws l)
           | Some m => Some (common_prefix (leading_ws l) m)
           end
  end.

(** [textwrap.dedent(text)]: lines of spaces and tabs become empty, the
    common margin is cut from the others. *)
Definition dedent (text : pystr) : pystr :=
  let lines := split_on LF text in
  let m := match margin_of lines with
           | Some m => List.length m
           | None => O
           end in
  join [LF] (map (fun l => if forallb is_sp_tab l then [] else skipn m l)
                 lines).

(** ** str.format *)

Inductive piece :=
| Lit (s : pystr)
| Field (name : pystr).

(** The pieces of a format string: literal text (with the doubled braces
    undone) and replacement fields [{name}].  [None] is the [ValueError] of
    an unbalanced brace; conversions, format specifications and attribute
    or index look-ups inside a field are outside what the script uses and
    are refused. *)
Fixpoint parse_format (lit : pystr) (fld : option pystr) (s : pystr)
  : option (list piece) :=
  match s with
  | [] =>
      match fld with
      | None => Some [Lit (rev lit)]
      | Some _ => None
      end
  | c :: r =>
      match fld with
      | None =>
          if c =? 123 then
            match r with
            | c' :: r' =>
                if c' =? 123 then parse_format (c :: lit) None r'
                else option_map (cons (Lit (rev lit)))
                                (parse_format [] (Some []) r)
            | [] => None
            end
          else if c =? 125 then
            match r with
            | c' :: r' =>
                if c' =? 125 then parse_format (c :: lit) None r'
                else None
            | [] => None
            end
          else parse_format (c :: lit) None r
      | Some acc =>
          if c =? 125 then
            option_map (cons (Field (rev acc))) (parse_format [] None r)
          else if (c =? 123) || (c =? 33) || (c =? 58) || (c =? 46)
                  || (c =? 91)
          then None
          else parse_format lit (Some (c :: acc)) r
      end
  end.

Fixpoint lookup (k : pystr) (kw : list (pystr * value)) : option value :=
  match kw with
  | [] => None
  | (k', v) :: rest => if eqb k k' then Some v else lookup k rest
  end.

(** Filling the fields from the keyword arguments; a missing keyword is the
    [KeyError] ([None]).  A value is inserted as [format(v, '')], which is
    [str(v)] for the strings and integers of the script. *)
Fixpoint fill (ps : list piece) (kw : list (pystr * value)) : option pystr :=
  match ps with
  | [] => Some []
  | Lit s :: rest => option_map (app s) (fill rest kw)
  | Field n :: rest =>
      match lookup n kw with
      | Some v => option_map (app (str v)) (fill rest kw)
      | None => None
      end
  end.

(** [templ.format] with keyword arguments [kw]. *)
Definition format (templ : pystr) (kw : list (pystr * value))
  : option pystr :=
  match parse_format [] None templ with
  | Some ps => fill ps kw
  | None => None
  end.

End Py.

(* ================================================================== *)
(** * The data source *)
(* ================================================================== *)

Module Db.
Import Py.

(** The rows of the tables the script reads.  [id]s and foreign keys are
    integers, names are text; [locality.society_id], [count.count] and
    [count.comment] may be NULL. *)
Record gubernia_row := { g_id : Z; g_name : pystr }.
Record uezd_row := { u_id : Z; u_name : pystr; u_gub_id : Z }.
Record volost_row := { v_id : Z; v_name : pystr; v_uezd_id : Z }.
Record locality_row :=
  { l_id : Z; l_name : pystr; l_volost_id : Z; l_society_id : option Z }.
Record society_row := { s_id : Z; s_name : pystr }.
Record category_row := { c_id : Z; c_name : pystr }.
Record count_row :=
  { n_locality_id : Z; n_category_id : Z;
    n_count : option Z; n_comment : option pystr }.

(** What the cursor is connected to: the tables, and the collation the
    server sorts names with ([collate a b] reads "a sorts no later than
    b"). *)
Record database :=
  { collate : pystr -> pystr -> bool;
    gubernia : list gubernia_row;
    uezd : list uezd_row;
    volost : list volost_row;
    locality : list locality_row;
    society : list society_row;
    category : list category_row;
    count : list count_row }.

(** Ascending order on a nullable text column: NULL sorts first. *)
Definition key_leb (le : pystr -> pystr -> bool) (a b : option pystr)
  : bool :=
  match a, b with
  | None, _ => true
  | Some _, None => false
  | Some x, Some y => le x y
  end.

Section OrderBy.
Context {A : Type} (le : pystr -> pystr -> bool) (key : A -> option pystr).

Fixpoint insert_row (x : A) (l : list A) : list A :=
  match l with
  | [] => [x]
  | y :: r => if key_leb le (key x) (key y) then x :: l
              else y :: insert_row x r
  end.

(** [ORDER BY key]: a sort of the rows on [key]. *)
Fixpoint order_by (l : list A) : list A :=
  match l with
  | [] => []
  | x :: r => insert_row x (order_by r)
  end.

End OrderBy.

(** SELECT id, name FROM gubernia ORDER BY name *)
Definition select_gubernias (db : database) : list (Z * pystr) :=
  map (fun r => (g_id r, g_name r))
      (order_by (collate db) (fun r => Some (g_name r)) (gubernia db)).

(** SELECT id, name FROM uezd WHERE gub_id=? ORDER BY name *)
Definition select_uezds (db : database) (gub : Z) : list (Z * pystr) :=
  map (fun r => (u_id r, u_name r))
      (order_by (collate db) (fun r => Some (u_name r))
                (filter (fun r => Z.eqb (u_gub_id r) gub) (uezd db))).

(** SELECT id, name FROM volost WHERE uezd_id=? ORDER BY name *)
Definition select_volosts (db : database) (uz : Z) : list (Z * pystr) :=
  map (fun r => (v_id r, v_name r))
      (order_by (collate db) (fun r => Some (v_name r))
                (filter (fun r => Z.eqb (v_uezd_id r) uz) (volost db))).

(** SELECT id, name FROM locality WHERE volost_id=? ORDER BY name *)
Definition select_localities (db : database) (vol : Z) : list (Z * pystr) :=
  map (fun r => (l_id r, l_name r))
      (order_by (collate db) (fun r => Some (l_name r))
                (filter (fun r => Z.eqb (l_volost_id r) vol) (locality db))).

(** [left LEFT JOIN right ON on]: every left row with each right row it
    matches, or once with NULLs when it matches none. *)
Definition left_join {L R : Type} (on : L -> R -> bool)
  (left : list L) (right : list R) : list (L * option R) :=
  flat_map (fun l =>
              match filter (on l) right with
              | [] => [(l, None)]
              | ms => map (fun r => (l, Some r)) ms
              end) left.

(** SELECT society.name FROM locality
    LEFT JOIN society ON locality.society_id=society.id
    WHERE locality.id=? *)
Definition select_society_name (db : database) (loc : Z)
  : list (option pystr) :=
  map (fun lr => option_map s_name (snd lr))
      (filter (fun lr => Z.eqb (l_id (fst lr)) loc)
              (left_join (fun l s => match l_society_id l with
                                     | Some i => Z.eqb i (s_id s)
                                     | None => false
                                     end)
                         (locality db) (society db))).

(** One row of the count query: category, count, comment. *)
Definition catcount_row : Type := option pystr * option Z * option pystr.

Definition cc_category (r : catcount_row) : option pystr := fst (fst r).
Definition cc_count (r : catcount_row) : option Z := snd (fst r).
Definition cc_comment (r : catcount_row) : option pystr := snd r.

(** The Count rows of a locality. *)
Definition counts_of (db : database) (loc : Z) : list count_row :=
  filter (fun n => Z.eqb (n_locality_id n) loc) (count db).

(** SELECT category.name AS category, count.count AS count,
    count.comment AS comment FROM count
    LEFT JOIN category ON count.category_id=category.id
    WHERE count.locality_id=? ORDER BY category.name *)
Definition select_catcount (db : database) (loc : Z) : list catcount_row :=
  order_by (collate db) cc_category
    (map (fun nc => (option_map c_name (snd nc),
                     n_count (fst nc), n_comment (fst nc)))
         (filter (fun nc => Z.eqb (n_locality_id (fst nc)) loc)
                 (left_join (fun n c => Z.eqb (n_category_id n) (c_id c))
                            (count db) (category db)))).

End Db.

(* ================================================================== *)
(** * The output tree *)
(* ================================================================== *)

Module Fs.
Import Py.

(** An absolute path, as its components. *)
Definition path := list pystr.

Inductive node :=
| Dir
| File (content : pystr).

(** The file system: what is at each path, if anything. *)
Definition fs := path -> option node.

Fixpoint path_eqb (p q : path) : bool :=
  match p, q with
  | [], [] => true
  | x :: p', y :: q' => Py.eqb x y && path_eqb p' q'
  | _, _ => false
  end.

(** [is_prefix p q]: [q] is [p] or lies below it. *)
Fixpoint is_prefix (p q : path) : bool :=
  match p, q with
  | [], _ => true
  | x :: p', y :: q' => Py.eqb x y && is_prefix p' q'
  | _ :: _, [] => false
  end.

Definition strict_prefix (p q : path) : bool :=
  is_prefix p q && negb (path_eqb p q).

(** How a run can end other than normally: [sys.exit(code)], or an
    exception nobody catches. *)
Inductive failure :=
| Exit (code : Z)
| Uncaught (exn : string).

Inductive result (A : Type) :=
| Ok (a : A)
| Fail (f : failure).
Arguments Ok {A} a.
Arguments Fail {A} f.

(** A computation on the output tree.  The tree is returned in every case:
    what was written before a failure stays on disk. *)
Definition M (A : Type) : Type := fs -> result A * fs.

Definition ret {A} (a : A) : M A := fun s => (Ok a, s).

Definition bind {A B} (m : M A) (k : A -> M B) : M B :=
  fun s => match m s with
           | (Ok a, s') => k a s'
           | (Fail f, s') => (Fail f, s')
           end.

Definition raise {A} (f : failure) : M A := fun s => (Fail f, s).

(** [for x in xs: acc = body x acc]. *)
Fixpoint for_each {A S} (xs : list A) (body : A -> S -> M S) (acc : S)
  : M S :=
  match xs with
  | [] => ret acc
  | x :: rest => bind (body x acc) (for_each rest body)
  end.

Definition is_file (o : option node) : bool :=
  match o with Some (File _) => true | _ => false end.

Definition is_dir (o : option node) : bool :=
  match o with Some Dir => true | _ => false end.

Definition exists_ (o : option node) : bool :=
  match o with Some _ => true | None => false end.

(** The proper ancestors of a path, shortest first. *)
Fixpoint ancestors (p : path) : list path :=
  match p with
  | [] => []
  | x :: p' => [] :: map (cons x) (ancestors p')
  end.

(** [os.makedirs(p)]: [OSError] when [p] exists or an ancestor is not a
    directory; otherwise [p] and its missing ancestors become
    directories. *)
Definition os_makedirs (p : path) (s : fs) : option fs :=
  if exists_ (s p) || existsb (fun a => is_file (s a)) (ancestors p)
  then None
  else Some (fun q => if is_prefix q p then Some Dir else s q).

(** [open(p, 'w+'); write(text); close()]: [OSError] unless the parent of
    [p] is a directory and [p] is not one. *)
Definition os_write (p : path) (text : pystr) (s : fs) : option fs :=
  if is_dir (s (removelast p)) && negb (is_dir (s p)) && negb (path_eqb p [])
  then Some (fun q => if path_eqb q p then Some (File text) else s q)
  else None.

(** [shutil.rmtree(p)] on an existing [p]: [OSError] when [p] is not a
    directory; otherwise [p] and everything below it go. *)
Definition shutil_rmtree (p : path) (s : fs) : option fs :=
  if is_dir (s p)
  then Some (fun q => if is_prefix p q then None else s q)
  else None.

End Fs.

(* ================================================================== *)
(** * class GPeasantSphinx *)
(* ================================================================== *)

Module Gen.
Import Py Db Fs.

Notation "x <- m ;; k" := (bind m (fun x => k))
  (at level 61, m at next level, right associativity).
Notation "m ;;; k" := (bind m (fun _ => k))
  (at level 61, right associativity).

(** The object: the open cursor and the root of the output tree.  (The
    progress messages the script prints, and the [__current_gub] field that
    only feeds them, are left out: no document depends on them.) *)
Record GPeasantSphinx := { cur : database; root_dir : path }.

(** [__init__]: [root_dir] is [<cwd>/gp/pages]. *)
Definition init (cwd : path) (db : database) : GPeasantSphinx :=
  {| cur := db; root_dir := cwd ++ [u "gp"; u "pages"] |}.

Definition root_title : pystr :=
  Eval vm_compute in u "Административно-территориальное деление".
Definition undefined_label : pystr :=
  Eval vm_compute in u "В окладной ведомости не указано".
Definition index_filename : pystr := Eval vm_compute in u "index.rst".

Definition tree_templ : pystr := Eval vm_compute in dedent (u "
        .. Tree RST template
        .. Autogenerated by gp-sphinx.py

        {_title_}

        .. toctree::
           :maxdepth: {_maxdepth_}

        {_members_}

        ").

Definition datasheet_templ : pystr :=
  Eval vm_compute in dedent (u "
        .. Datasheet RST template
        .. Autogenerated by gp-sphinx.py

        .. index:: {_index_}

        {_title_}

        Сельское общество
        -----------------
        {_socname_}

        Сведения о государственных крестьянах
        --------------------------------------

        .. list-table::
           :header-rows: 1
           :widths: 10 70 20

           * - #
             - Категория крестьян
             - Количество душ м.п.

        {_datasheet_}

        ").

Definition datasheet_empty_templ : pystr :=
  Eval vm_compute in dedent (u "
        .. Datasheet RST template
        .. Autogenerated by gp-sphinx.py

        .. index:: {_index_}

        {_title_}

        Сельское общество
        -----------------
        {_socname_}

        Сведения о государственных крестьянах
        --------------------------------------

        В окладной ведомости сведения о числе государственных крестьян отсутствуют.

        ").

(** [make_dirs]: every path the script passes is absolute, so the
    [os.path.join] with [root_dir] returns it unchanged. *)
Definition make_dirs (self : GPeasantSphinx) (p : path) : M unit :=
  fun s => match os_makedirs p s with
           | Some s' => (Ok tt, s')
           | None => (Fail (Exit 1), s)
           end.

Definition file_write (self : GPeasantSphinx) (fn : path) (rst : pystr)
  : M unit :=
  fun s => match os_write fn rst s with
           | Some s' => (Ok tt, s')
           | None => (Fail (Uncaught "OSError"), s)
           end.

Definition clear (self : GPeasantSphinx) : M unit :=
  fun s => if exists_ (s (root_dir self))
           then match shutil_rmtree (root_dir self) s with
                | Some s' => (Ok tt, s')
                | None => (Fail (Uncaught "OSError"), s)
                end
           else (Ok tt, s).

(** Prepend 3 white spaces. *)
Definition format3 (name : pystr) : pystr := indent name (u "   ").

Definition format_note (note : pystr) : pystr :=
  u ".. note:: " ++ [LF; LF] ++ format3 note.

(** Underline header name. *)
Definition format_header (name : pystr) : pystr :=
  (name ++ [LF]) ++ repeat 61 (List.length name).

(** The text of a cell: [''] for [None], else [str(col)] with its
    newlines escaped. *)
Definition escape_col (col : value) : pystr :=
  match col with
  | VNone => []
  | _ => replace LF ([LF; LF] ++ u "       ") (str col)
  end.

(** What one turn of the loop of [format_table_row] appends for [col]. *)
Definition cell (col : value) : pystr :=
  format3 (u "  - " ++ escape_col col ++ [LF]).

Definition format_table_row (cols : list value) (counter : Z) : pystr :=
  fold_left (fun _row col => _row ++ cell col)
            cols
            (format3 (u "* - " ++ str (VInt counter) ++ [LF])).

Definition of_text (o : option pystr) : value :=
  match o with Some s => VStr s | None => VNone end.

Definition of_int (o : option Z) : value :=
  match o with Some z => VInt z | None => VNone end.

(** The state of the first loop of [__gen_datasheets]. *)
Record rows_state :=
  { table : pystr; comments : list pystr; counter : Z }.

(** One turn of [for (category, count, comment) in catcount]: a row with
    a comment has its count replaced by [f'{str(count)}*'] and its comment
    appended to [comments]. *)
Definition row_step (st : rows_state) (row : catcount_row) : rows_state :=
  let '(category, count, comment) := row in
  let count' := match comment with
                | Some _ => VStr (str (of_int count) ++ u "*")
                | None => of_int count
                end in
  let comments' := match comment with
                   | Some c => comments st ++ [c]
                   | None => comments st
                   end in
  {| table := table st
              ++ format_table_row [of_text category; count'] (counter st);
     comments := comments';
     counter := (counter st + 1)%Z |}.

Definition rows_loop (catcount : list catcount_row) : rows_state :=
  fold_left row_step catcount
            {| table := []; comments := []; counter := 1%Z |}.

(** One turn of [for comm in comments]. *)
Definition comment_step (st : pystr * Z) (comm : pystr) : pystr * Z :=
  let '(comment_txt, comment_counter) := st in
  (comment_txt ++ u "(" ++ str_int comment_counter ++ u "*) " ++ comm
               ++ [LF; LF],
   (comment_counter + 1)%Z).

Definition comments_loop (cs : list pystr) : pystr :=
  fst (fold_left comment_step cs ([], 1%Z)).

(** The [datasheet] variable: the table, then the note when there are
    comments. *)
Definition datasheet_of (catcount : list catcount_row) : pystr :=
  let st := rows_loop catcount in
  if (0 <? List.length (comments st))%nat
  then table st ++ [LF; LF] ++ format_note (comments_loop (comments st))
  else table st.

Definition soc_name_of (fetched : option pystr) : pystr :=
  if negb (truthy fetched) then undefined_label
  else match fetched with Some s => s | None => [] end.

(** The [_socname_] argument: [soc_name + '.']. *)
Definition socname_line (fetched : option pystr) : pystr :=
  soc_name_of fetched ++ u ".".

Definition index_of (l_name : pystr) : pystr :=
  join (u " ") (tl (split l_name)).

(** The text [__gen_datasheets] writes, from what its two queries
    fetched. *)
Definition datasheet_rst (fetched : option pystr) (l_name : pystr)
  (catcount : list catcount_row) : option pystr :=
  match catcount with
  | _ :: _ =>
      format datasheet_templ
             [(u "_index_", VStr (index_of l_name));
              (u "_title_", VStr (format_header l_name));
              (u "_socname_", VStr (socname_line fetched));
              (u "_datasheet_", VStr (datasheet_of catcount))]
  | [] =>
      format datasheet_empty_templ
             [(u "_index_", VStr (index_of l_name));
              (u "_title_", VStr (format_header l_name));
              (u "_socname_", VStr (socname_line fetched))]
  end.

Definition write_rst (self : GPeasantSphinx) (fn : path)
  (rst : option pystr) : M unit :=
  match rst with
  | Some text => file_write self fn text
  | None => raise (Uncaught "KeyError")
  end.

Definition gen_datasheets (self : GPeasantSphinx) (l_id : Z)
  (l_name : pystr) (pdir : path) : M unit :=
  match select_society_name (cur self) l_id with
  | [] => raise (Uncaught "IndexError")
  | fetched :: _ =>
      let catcount := select_catcount (cur self) l_id in
      write_rst self (pdir ++ [index_filename])
                (datasheet_rst fetched l_name catcount)
  end.

(** The tree-index text of one level. *)
Definition tree_rst (title members : pystr) (maxdepth : Z) : option pystr :=
  format tree_templ
         [(u "_title_", VStr (format_header title));
          (u "_members_", VStr members);
          (u "_maxdepth_", VInt maxdepth)].

Definition gen_localities (self : GPeasantSphinx) (v_id : Z)
  (v_name : pystr) (pdir : path) : M unit :=
  _l_list <- for_each (select_localities (cur self) v_id)
               (fun '(l_id, l_name) _l_list =>
                  let _l_list :=
                    _l_list ++ format3 (u "locality/" ++ str_int l_id
                                    ++ u "/index" ++ [LF]) in
                  let child_dir := pdir ++ [u "locality"; str_int l_id] in
                  make_dirs self child_dir ;;;
                  gen_datasheets self l_id l_name child_dir ;;;
                  ret _l_list)
               [] ;;
  write_rst self (pdir ++ [index_filename]) (tree_rst v_name _l_list 1).

Definition gen_volosts (self : GPeasantSphinx) (u_id : Z)
  (u_name : pystr) (pdir : path) : M unit :=
  _v_list <- for_each (select_volosts (cur self) u_id)
               (fun '(v_id, v_name) _v_list =>
                  let _v_list :=
                    _v_list ++ format3 (u "volost/" ++ str_int v_id
                                    ++ u "/index" ++ [LF]) in
                  let child_dir := pdir ++ [u "volost"; str_int v_id] in
                  make_dirs self child_dir ;;;
                  gen_localities self v_id v_name child_dir ;;;
                  ret _v_list)
               [] ;;
  write_rst self (pdir ++ [index_filename]) (tree_rst u_name _v_list 1).

Definition gen_uezds (self : GPeasantSphinx) (g_id : Z)
  (g_name : pystr) (pdir : path) : M unit :=
  _u_list <- for_each (select_uezds (cur self) g_id)
               (fun '(u_id, u_name) _u_list =>
                  let _u_list :=
                    _u_list ++ format3 (u "uezd/" ++ str_int u_id
                                    ++ u "/index" ++ [LF]) in
                  let child_dir := pdir ++ [u "uezd"; str_int u_id] in
                  make_dirs self child_dir ;;;
                  gen_volosts self u_id u_name child_dir ;;;
                  ret _u_list)
               [] ;;
  write_rst self (pdir ++ [index_filename]) (tree_rst g_name _u_list 2).

Definition gen_gubernias (self : GPeasantSphinx) (root : path) : M unit :=
  _g_list <- for_each (select_gubernias (cur self))
               (fun '(g_id, g_name) _g_list =>
                  let _g_list :=
                    _g_list ++ format3 (u "gubernia/" ++ str_int g_id
                                    ++ u "/index" ++ [LF]) in
                  let child_dir := root ++ [u "gubernia"; str_int g_id] in
                  make_dirs self child_dir ;;;
                  gen_uezds self g_id g_name child_dir ;;;
                  ret _g_list)
               [] ;;
  write_rst self (root_dir self ++ [index_filename])
            (tree_rst root_title _g_list 2).

Definition generate (self : GPeasantSphinx) : M unit :=
  clear self ;;;
  gen_gubernias self (root_dir self).

End Gen.

(* ================================================================== *)
(** * What the documents are said to look like *)
(* ================================================================== *)

Module Spec.
Import Py Db Fs Gen.

(** A text with no line boundary of [str.splitlines] in it. *)
Definition no_linebreak (s : pystr) : bool :=
  forallb (fun c => negb (is_linebreak c)) s.

(** A text whose only line boundaries are ['\n']. *)
Definition only_lf_breaks (s : pystr) : bool :=
  forallb (fun c => negb (is_linebreak c) || (c =? LF)) s.

Definition is_digit (c : N) : bool := (48 <=? c) && (c <=? 57).

Definition spaces (n : nat) : pystr := repeat SP n.

(** The first line of a table row: the list marker and the sequence
    number. *)
Definition row_head (counter : Z) : pystr :=
  u "   * - " ++ str_int counter ++ [LF].

(** The start of a rendered cell; the cell's content begins right after
    it, at column [cell_column]. *)
Definition cell_marker : pystr := u "     - ".
Definition cell_column : nat := List.length cell_marker.

(** The continuation of a cell after an embedded newline, as the script
    lays it out: an empty line, then the rest of the text behind 10 spaces,
    or behind 7 when that rest is whitespace only. *)
Definition continuation (seg : pystr) : pystr :=
  [LF] ++ (if blank seg then spaces 7 else spaces 10) ++ seg ++ [LF].

Definition cell_layout (text : pystr) : pystr :=
  cell_marker ++ hd [] (split_on LF text) ++ [LF]
  ++ concat (map continuation (tl (split_on LF text))).

(** The cell as the specification words it: every embedded newline starts
    a continuation line padded to the column of the cell's content, and a
    text without newlines goes out unchanged. *)
Definition claimed_cell (text : pystr) : pystr :=
  cell_marker ++ replace LF ([LF; LF] ++ spaces cell_column) text ++ [LF].

(** A token of [str.split]: a non-empty text without whitespace. *)
Definition no_space (s : pystr) : bool :=
  forallb (fun c => negb (isspace c)) s.

Definition token (s : pystr) : Prop := s <> [] /\ no_space s = true.

(** ** The layout of a datasheet document *)

(** The two comment lines and the index directive with its field. *)
Definition index_directive (field : pystr) : pystr :=
  [LF] ++ u ".. Datasheet RST template" ++ [LF]
  ++ u ".. Autogenerated by gp-sphinx.py" ++ [LF; LF]
  ++ u ".. index:: " ++ field ++ [LF; LF].

(** The community section: its heading, then the community-name line. *)
Definition community_block (line : pystr) : pystr :=
  [LF; LF] ++ u "Сельское общество" ++ [LF]
  ++ u "-----------------" ++ [LF]
  ++ line.

(** The heading of the section that holds the table or the sentence. *)
Definition section_title : pystr :=
  [LF; LF] ++ u "Сведения о государственных крестьянах" ++ [LF]
  ++ u "--------------------------------------" ++ [LF; LF].

(** The table directive with its options and its header row. *)
Definition table_directive : pystr :=
  u ".. list-table::" ++ [LF]
  ++ u "   :header-rows: 1" ++ [LF]
  ++ u "   :widths: 10 70 20" ++ [LF; LF]
  ++ u "   * - #" ++ [LF]
  ++ u "     - Категория крестьян" ++ [LF]
  ++ u "     - Количество душ м.п." ++ [LF; LF].

(** The sentence of the empty-data document. *)
Definition no_data_sentence : pystr :=
  u "В окладной ведомости сведения о числе государственных крестьян отсутствуют.".

(** What follows the section heading. *)
Definition body (catcount : list catcount_row) : pystr :=
  match catcount with
  | [] => no_data_sentence
  | _ :: _ => table_directive ++ datasheet_of catcount
  end.

(** Title and community section: what both datasheet documents start
    with, after the index directive.  [line] is the community-name line. *)
Definition header (line l_name : pystr) : pystr :=
  format_header l_name ++ community_block line ++ section_title.

Definition datasheet_doc (line l_name : pystr)
  (catcount : list catcount_row) : pystr :=
  index_directive (index_of l_name) ++ header line l_name
  ++ body catcount ++ [LF; LF].

(** The tree-index document. *)
Definition tree_doc (title members : pystr) (maxdepth : Z) : pystr :=
  [LF] ++ u ".. Tree RST template" ++ [LF]
  ++ u ".. Autogenerated by gp-sphinx.py" ++ [LF; LF]
  ++ format_header title ++ [LF; LF]
  ++ u ".. toctree::" ++ [LF]
  ++ u "   :maxdepth: " ++ str_int maxdepth ++ [LF; LF]
  ++ members ++ [LF; LF].

(** [occurs pat s]: [pat] is a substring of [s]. *)
Fixpoint starts_with (pat s : pystr) : bool :=
  match pat, s with
  | [], _ => true
  | x :: pat', y :: s' => (x =? y) && starts_with pat' s'
  | _ :: _, [] => false
  end.

Fixpoint occurs (pat s : pystr) : bool :=
  starts_with pat s
  || match s with
     | [] => false
     | _ :: s' => occurs pat s'
     end.

(** ** Rows and footnotes *)

(** [number_from k xs]: the elements of [xs] numbered k, k+1, ... *)
Fixpoint number_from {A} (k : Z) (xs : list A) : list (Z * A) :=
  match xs with
  | [] => []
  | x :: rest => (k, x) :: number_from (k + 1)%Z rest
  end.

(** The two cells of a row: its category, and its count, starred when the
    row has a comment. *)
Definition row_cols (row : catcount_row) : list value :=
  [of_text (cc_category row);
   match cc_comment row with
   | Some _ => VStr (str (of_int (cc_count row)) ++ u "*")
   | None => of_int (cc_count row)
   end].

Definition table_row (ir : Z * catcount_row) : pystr :=
  format_table_row (row_cols (snd ir)) (fst ir).

(** The comments of the rows that have one, in row order. *)
Definition comments_of (rows : list catcount_row) : list pystr :=
  flat_map (fun r => match cc_comment r with
                     | Some c => [c]
                     | None => []
                     end) rows.

(** One footnote: its number in parentheses with the marker, the comment
    text, and an empty line. *)
Definition footnote (e : Z * pystr) : pystr :=
  u "(" ++ str_int (fst e) ++ u "*) " ++ snd e ++ [LF; LF].

(** The footnote block: the note directive over the indented footnotes. *)
Definition note_block (entries : list (Z * pystr)) : pystr :=
  [LF; LF] ++ u ".. note:: " ++ [LF; LF]
  ++ format3 (concat (map footnote entries)).

(** A Count row with a comment: its comment field is not NULL.  (This is
    the script's own test, [comment is not None]; a comment that is the
    empty text is a comment.) *)
Definition has_comment (n : count_row) : bool :=
  match n_comment n with Some _ => true | None => false end.

(** The category name the join gives a Count row. *)
Definition category_of (db : database) (n : count_row) : option pystr :=
  option_map c_name
             (find (fun c => Z.eqb (n_category_id n) (c_id c)) (category db)).

(** The Count row as the query returns it. *)
Definition fetched_row (db : database) (n : count_row) : catcount_row :=
  (category_of db n, n_count n, n_comment n).

(** The community a locality row is associated with, if any. *)
Definition community_of (db : database) (l : locality_row)
  : option society_row :=
  find (fun s => match l_society_id l with
                 | Some i => Z.eqb i (s_id s)
                 | None => false
                 end) (society db).

(** The community-name line as the specification words it. *)
Definition claimed_community_line (db : database) (l : locality_row)
  : pystr :=
  match community_of db l with
  | None => undefined_label
  | Some s => s_name s
  end.

(** The community-name line as the script writes it. *)
Definition community_line (db : database) (l : locality_row) : pystr :=
  match community_of db l with
  | None => undefined_label ++ u "."
  | Some s => (if nonempty (s_name s) then s_name s else undefined_label)
              ++ u "."
  end.

(** The collation puts any two names in order. *)
Definition collation_total (db : database) : Prop :=
  forall a b, collate db a b = true \/ collate db b a = true.

(** Rows in ascending order of a nullable text key. *)
Definition ordered_by {A} (le : pystr -> pystr -> bool)
  (key : A -> option pystr) (a b : A) : Prop :=
  key_leb le (key a) (key b) = true.

(** Ascending order of a nullable name column. *)
Definition name_le (db : database) (a b : option pystr) : Prop :=
  key_leb (collate db) a b = true.

(** The footnotes of a table: the comments of its rows, numbered from 1
    in row order. *)
Definition footnotes (rows : list catcount_row) : list (Z * pystr) :=
  number_from 1 (comments_of rows).

(** The footnote block of a table: nothing when no row has a comment. *)
Definition notes (rows : list catcount_row) : pystr :=
  match footnotes rows with
  | [] => []
  | _ :: _ => note_block (footnotes rows)
  end.

(** ** Two runs over the same output tree *)

(** A file tree: whatever exists lies in a directory. *)
Definition well_formed (s : fs) : Prop :=
  forall p x, s (p ++ [x]) <> None -> s p = Some Dir.

(** [t] is [s], except that ancestors of [root] missing in [s] may be
    directories in [t]. *)
Definition similar (root : path) (s t : fs) : Prop :=
  forall p, s p = t p
            \/ (strict_prefix p root = true /\ s p = None /\ t p = Some Dir).

(** The same, looking only outside [root]. *)
Definition similar_outside (root : path) (s t : fs) : Prop :=
  forall p, is_prefix root p = false ->
            s p = t p
            \/ (strict_prefix p root = true /\ s p = None /\ t p = Some Dir).

(** What every step of the walk satisfies: on similar trees it ends the
    same way and leaves similar trees; it keeps the tree well formed; it
    touches nothing outside [root] but missing ancestors; it does not turn
    [root] into a file. *)
Definition sound (root : path) {A} (m : M A) : Prop :=
  (forall s t, similar root s t ->
               fst (m s) = fst (m t) /\ similar root (snd (m s)) (snd (m t)))
  /\ (forall s, well_formed s -> well_formed (snd (m s)))
  /\ (forall s, similar_outside root s (snd (m s)))
  /\ (forall s, is_file (s root) = false -> is_file (snd (m s) root) = false).

(** ** The members of a tree-index document *)

(** The reference to one child page, and the list of them. *)
Definition member_line (level : pystr) (row : Z * pystr) : pystr :=
  format3 (level ++ u "/" ++ str_int (fst row) ++ u "/index" ++ [LF]).

Definition members (level : pystr) (rows : list (Z * pystr)) : pystr :=
  concat (map (member_line level) rows).

(** ** The whitespace-delimited tokens of a text *)

(** Nothing, or something that begins with whitespace. *)
Definition starts_blank (s : pystr) : Prop :=
  match s with
  | [] => True
  | c :: _ => isspace c = true
  end.

(** [tokens_of s toks]: [toks] are the whitespace-delimited tokens of [s],
    in order.  A text of whitespace only has none; otherwise the text is
    some whitespace, then its first token (non-empty, free of whitespace,
    and ended by whitespace or by the end of the text), then a rest with
    the further tokens. *)
Inductive tokens_of : pystr -> list pystr -> Prop :=
| tokens_none g : blank g = true -> tokens_of g []
| tokens_next g t rest toks :
    blank g = true -> token t -> starts_blank rest ->
    tokens_of rest toks ->
    tokens_of (g ++ t ++ rest) (t :: toks).

(** Tokens written one after the other with one space between them. *)
Definition spaced (toks : list pystr) : pystr :=
  match toks with
  | [] => []
  | t :: ts => t ++ concat (map (fun x => 32 :: x) ts)
  end.

(** A Count row whose comment field holds at least one character. *)
Definition nonempty_comment (n : count_row) : bool :=
  match n_comment n with
  | Some (_ :: _) => true
  | _ => false
  end.

End Spec.

(* ================================================================== *)
(** * Sample data *)
(* ================================================================== *)

Module Sample.
Import Py Db Fs Gen.

(** Names compared code point by code point. *)
Fixpoint lex_leb (a b : pystr) : bool :=
  match a, b with
  | [], _ => true
  | _ :: _, [] => false
  | x :: a', y :: b' => (x <? y) || ((x =? y) && lex_leb a' b')
  end.

(** One province, district and canton; locality 1 has two Count rows, one
    of them commented, and no community; locality 2 has no Count row and a
    community whose name is empty; locality 3 has a named community. *)
Definition db : database :=
  {| collate := lex_leb;
     gubernia := [ {| g_id := 1; g_name := u "Province A" |} ];
     uezd := [ {| u_id := 1; u_name := u "District B"; u_gub_id := 1 |} ];
     volost := [ {| v_id := 1; v_name := u "Canton C"; v_uezd_id := 1 |} ];
     locality :=
       [ {| l_id := 1; l_name := u "Locality D"; l_volost_id := 1;
            l_society_id := None |};
         {| l_id := 2; l_name := u "der. Upper  Ford"; l_volost_id := 1;
            l_society_id := Some 1%Z |};
         {| l_id := 3; l_name := u "Locality F"; l_volost_id := 1;
            l_society_id := Some 2%Z |} ];
     society := [ {| s_id := 1; s_name := [] |};
                  {| s_id := 2; s_name := u "Foo" |} ];
     category := [ {| c_id := 1; c_name := u "Category Y" |};
                   {| c_id := 2; c_name := u "Category X" |} ];
     count :=
       [ {| n_locality_id := 1; n_category_id := 1; n_count := Some 3%Z;
            n_comment := Some (u "estimated") |};
         {| n_locality_id := 1; n_category_id := 2; n_count := Some 5%Z;
            n_comment := None |} ] |}.

(** The same data, except that the comment of the first Count row is the
    empty text (not NULL). *)
Definition db_empty_comment : database :=
  {| collate := lex_leb;
     gubernia := gubernia db;
     uezd := uezd db;
     volost := volost db;
     locality := locality db;
     society := society db;
     category := category db;
     count :=
       [ {| n_locality_id := 1; n_category_id := 1; n_count := Some 3%Z;
            n_comment := Some [] |};
         {| n_locality_id := 1; n_category_id := 2; n_count := Some 5%Z;
            n_comment := None |} ] |}.

Definition locality_D : locality_row :=
  {| l_id := 1; l_name := u "Locality D"; l_volost_id := 1;
     l_society_id := None |}.

Definition locality_E : locality_row :=
  {| l_id := 2; l_name := u "der. Upper  Ford"; l_volost_id := 1;
     l_society_id := Some 1%Z |}.

Definition locality_F : locality_row :=
  {| l_id := 3; l_name := u "Locality F"; l_volost_id := 1;
     l_society_id := Some 2%Z |}.

Definition self : GPeasantSphinx := init [u "srv"] db.

(** A disk with nothing on it. *)
Definition empty_fs : fs := fun _ => None.

End Sample.

(* ================================================================== *)
(** * The walk as a whole *)
(* ================================================================== *)

Module Site.
Import Py Db Fs Gen Spec.

(** [keeps s t]: whatever is on disk in [s] is there unchanged in [t]. *)
Definition keeps (s t : fs) : Prop :=
  forall q, s q <> None -> t q = s q.

(** The same for what does not lie below the directory [c]. *)
Definition keeps_outside (c : path) (s t : fs) : Prop :=
  forall q, strict_prefix c q = false -> s q <> None -> t q = s q.

(** [realizes pages t]: every node [pages] lists is on the disk [t]. *)
Definition realizes (pages : path -> node -> Prop) (t : fs) : Prop :=
  forall p n, pages p n -> t p = Some n.

(** The four levels of the walk have one shape: for every row of the
    listing, add its line to the member list, create its directory and
    walk the level below in it; then write the index of this level. *)
Definition level_walk (self : GPeasantSphinx) (level : pystr)
  (rows : list (Z * pystr)) (sub : Z -> pystr -> path -> M unit)
  (title : pystr) (maxdepth : Z) (pdir : path) : M unit :=
  bind (for_each rows
          (fun '(i, n) acc =>
             let acc :=
               acc ++ format3 (level ++ u "/" ++ str_int i
                                     ++ u "/index" ++ [LF]) in
             let child_dir := pdir ++ [level; str_int i] in
             bind (make_dirs self child_dir)
                  (fun _ => bind (sub i n child_dir) (fun _ => ret acc)))
          [])
       (fun l => write_rst self (pdir ++ [index_filename])
                           (tree_rst title l maxdepth)).

(** The page of a locality, in its directory [pdir]. *)
Definition datasheet_page (db : database) (pdir : path) (x : Z * pystr)
  (p : path) (n : node) : Prop :=
  exists fetched rest,
    select_society_name db (fst x) = fetched :: rest
    /\ p = pdir ++ [index_filename]
    /\ n = File (datasheet_doc (socname_line fetched) (snd x)
                               (select_catcount db (fst x))).

(** The nodes of one level in [pdir]: its index, and for every row its
    directory and the nodes of the level below. *)
Definition level_pages (level : pystr) (rows : list (Z * pystr))
  (title : pystr) (maxdepth : Z)
  (below : path -> Z * pystr -> path -> node -> Prop)
  (pdir : path) (p : path) (n : node) : Prop :=
  (p = pdir ++ [index_filename]
   /\ n = File (tree_doc title (members level rows) maxdepth))
  \/ exists x,
      In x rows
      /\ ((p = pdir ++ [level; str_int (fst x)] /\ n = Dir)
          \/ below (pdir ++ [level; str_int (fst x)]) x p n).

Definition canton_pages (db : database) (pdir : path) (v : Z * pystr) :=
  level_pages (u "locality") (select_localities db (fst v)) (snd v) 1
              (datasheet_page db) pdir.

Definition district_pages (db : database) (pdir : path) (uz : Z * pystr) :=
  level_pages (u "volost") (select_volosts db (fst uz)) (snd uz) 1
              (canton_pages db) pdir.

Definition province_pages (db : database) (pdir : path) (g : Z * pystr) :=
  level_pages (u "uezd") (select_uezds db (fst g)) (snd g) 2
              (district_pages db) pdir.

(** Everything a complete run is to leave under [root]. *)
Definition site_pages (db : database) (root : path) :=
  level_pages (u "gubernia") (select_gubernias db) root_title 2
              (province_pages db) root.

(** A data source with no province in it. *)
Definition no_provinces : database :=
  {| collate := Sample.lex_leb;
     gubernia := []; uezd := []; volost := []; locality := [];
     society := []; category := []; count := [] |}.

(** A disk that holds the directories down to [root] and nothing else. *)
Definition dirs_to (root : path) : fs :=
  fun p => if is_prefix p root then Some Dir else None.

(** The disk [s] with one more file. *)
Definition with_file (s : fs) (fn : path) (text : pystr) : fs :=
  fun p => if path_eqb p fn then Some (File text) else s p.

(** A disk with an empty output root, and one where an earlier run has
    left a page in it. *)
Definition fresh_disk : fs := dirs_to (root_dir Sample.self).
Definition stale_disk : fs :=
  with_file fresh_disk (root_dir Sample.self ++ [u "old.rst"]) (u "old").

End Site.

(* ================================================================== *)
(** * Properties *)
(* ================================================================== *)

Import Py Db Fs Gen Spec Site.

(** ** Comparisons on code points *)

Lemma isspace_spec c :
  isspace c = true <->
  (9 <= c <= 13 \/ 28 <= c <= 32 \/ c = 133 \/ c = 160 \/ c = 5760
   \/ 8192 <= c <= 8202 \/ c = 8232 \/ c = 8233 \/ c = 8239 \/ c = 8287
   \/ c = 12288).
Proof.
  unfold isspace.
  rewrite !orb_true_iff, !andb_true_iff, !N.leb_le, !N.eqb_eq. tauto.
Qed.

Lemma is_linebreak_spec c :
  is_linebreak c = true <->
  (10 <= c <= 13 \/ 28 <= c <= 30 \/ c = 133 \/ c = 8232 \/ c = 8233).
Proof.
  unfold is_linebreak.
  rewrite !orb_true_iff, !andb_true_iff, !N.leb_le, !N.eqb_eq. tauto.
Qed.

Lemma linebreak_isspace c : is_linebreak c = true -> isspace c = true.
Proof. rewrite isspace_spec, is_linebreak_spec. lia. Qed.

Lemma digit_not_space c :
  is_digit c || (c =? 45) = true -> isspace c = false.
Proof.
  unfold is_digit.
  rewrite orb_true_iff, andb_true_iff, !N.leb_le, N.eqb_eq.
  intros H. apply not_true_iff_false. rewrite isspace_spec. lia.
Qed.

Lemma not_space_not_linebreak c : isspace c = false -> is_linebreak c = false.
Proof.
  intros H. destruct (is_linebreak c) eqn:E; [|reflexivity].
  apply linebreak_isspace in E. congruence.
Qed.

Lemma uint_chars_digits d : forallb is_digit (uint_chars d) = true.
Proof. induction d; simpl; auto. Qed.

Lemma str_int_chars z :
  forallb (fun c => negb (isspace c)) (str_int z) = true.
Proof.
  assert (D : forall d,
             forallb (fun c => negb (isspace c)) (uint_chars d) = true).
  { intros d. pose proof (uint_chars_digits d) as H.
    induction (uint_chars d) as [|c l IH]; simpl in *; [reflexivity|].
    apply andb_true_iff in H. destruct H as [Hc Hl].
    rewrite (digit_not_space c), IH; auto. rewrite Hc. reflexivity. }
  unfold str_int. destruct (Z.to_int z); simpl; auto.
Qed.

Lemma no_space_no_linebreak s :
  forallb (fun c => negb (isspace c)) s = true -> no_linebreak s = true.
Proof.
  unfold no_linebreak. induction s as [|c s IH]; simpl; [reflexivity|].
  intros H. apply andb_true_iff in H. destruct H as [Hc Hs].
  rewrite IH by assumption. apply negb_true_iff in Hc.
  rewrite (not_space_not_linebreak c Hc). reflexivity.
Qed.

Lemma str_int_no_linebreak z : no_linebreak (str_int z) = true.
Proof. apply no_space_no_linebreak, str_int_chars. Qed.

Lemma no_linebreak_app a b :
  no_linebreak (a ++ b) = no_linebreak a && no_linebreak b.
Proof. unfold no_linebreak. apply forallb_app. Qed.

(** ** Lines and indentation *)

Lemma splitlines_from_line cur l rest :
  no_linebreak l = true ->
  splitlines_from cur (l ++ LF :: rest)
  = (rev cur ++ l ++ [LF]) :: splitlines_from [] rest.
Proof.
  revert cur. induction l as [|c l IH]; intros cur H.
  - reflexivity.
  - simpl in H. apply andb_true_iff in H. destruct H as [Hc Hl].
    apply negb_true_iff in Hc. simpl.
    destruct (N.eqb_spec c CR) as [->|_]; [discriminate Hc|].
    rewrite Hc, IH by assumption. simpl. rewrite <- app_assoc. reflexivity.
Qed.

Lemma blank_line l : blank (l ++ [LF]) = blank l.
Proof. unfold blank. rewrite forallb_app. simpl. apply andb_true_r. Qed.

Lemma indent_line l rest p :
  no_linebreak l = true ->
  indent (l ++ LF :: rest) p
  = (if blank l then l ++ [LF] else p ++ l ++ [LF]) ++ indent rest p.
Proof.
  intros H. unfold indent, splitlines.
  rewrite splitlines_from_line by assumption. simpl.
  rewrite blank_line. reflexivity.
Qed.

Lemma format3_line l :
  no_linebreak l = true ->
  format3 (l ++ [LF]) = if blank l then l ++ [LF] else u "   " ++ l ++ [LF].
Proof.
  intros H. unfold format3. rewrite (indent_line l [] _ H).
  apply app_nil_r.
Qed.

Lemma row_head_eq counter :
  format3 (u "* - " ++ str (VInt counter) ++ [LF]) = row_head counter.
Proof.
  change (u "* - " ++ str (VInt counter) ++ [LF])
    with ((u "* - " ++ str_int counter) ++ [LF]) at 1.
  rewrite format3_line.
  - reflexivity.
  - rewrite no_linebreak_app, str_int_no_linebreak. reflexivity.
Qed.

Lemma fold_cells cols acc :
  fold_left (fun _row col => _row ++ cell col) cols acc
  = acc ++ concat (map cell cols).
Proof.
  revert acc. induction cols as [|c cols IH]; intros acc; simpl.
  - symmetry. apply app_nil_r.
  - rewrite IH, <- app_assoc. reflexivity.
Qed.

Lemma format_table_row_eq cols counter :
  format_table_row cols counter = row_head counter ++ concat (map cell cols).
Proof.
  unfold format_table_row. rewrite fold_cells, row_head_eq. reflexivity.
Qed.

Lemma cell_none : cell VNone = cell_marker ++ [LF].
Proof. reflexivity. Qed.

(** ** Cells of a table row *)

Lemma split_on_from_cons sep cur s :
  exists x rest, split_on_from sep cur s = x :: rest.
Proof.
  revert cur. induction s as [|c s IH]; intros cur; simpl.
  - eauto.
  - destruct (c =? sep); eauto.
Qed.

Lemma join_cons sep x y rest :
  join sep (x :: y :: rest) = x ++ sep ++ join sep (y :: rest).
Proof. reflexivity. Qed.

Lemma replace_join new cur s :
  rev cur ++ replace LF new s = join new (split_on_from LF cur s).
Proof.
  revert cur. induction s as [|c s IH]; intros cur; simpl.
  - apply app_nil_r.
  - destruct (N.eqb_spec c LF) as [->|Hc].
    + destruct (split_on_from_cons LF [] s) as (x & rest & E).
      specialize (IH []). rewrite E in *. simpl in IH. rewrite IH.
      reflexivity.
    + rewrite <- IH. simpl. rewrite <- app_assoc. reflexivity.
Qed.

Lemma split_on_from_no_linebreak cur s :
  no_linebreak (rev cur) = true ->
  only_lf_breaks s = true ->
  Forall (fun x => no_linebreak x = true) (split_on_from LF cur s).
Proof.
  revert cur. induction s as [|c s IH]; intros cur Hcur Hs; simpl.
  - constructor; auto.
  - simpl in Hs. apply andb_true_iff in Hs. destruct Hs as [Hc Hs].
    destruct (N.eqb_spec c LF) as [->|Hne].
    + constructor; auto.
    + rewrite orb_false_r in Hc. apply IH; auto.
      simpl. rewrite no_linebreak_app, Hcur. simpl. rewrite Hc. reflexivity.
Qed.

Lemma blank_app a b : blank (a ++ b) = blank a && blank b.
Proof. unfold blank. apply forallb_app. Qed.

(** The layout of an escaped text behind a line start [pre]: the first
    segment follows [pre]; every further segment comes after an empty line,
    behind the seven spaces of the escape, which [indent] pushes three
    columns further unless the line is whitespace only. *)
Lemma indent_escaped pre s0 rest :
  no_linebreak pre = true ->
  Forall (fun x => no_linebreak x = true) (s0 :: rest) ->
  indent (pre ++ join ([LF; LF] ++ u "       ") (s0 :: rest) ++ [LF])
         (u "   ")
  = (if blank (pre ++ s0) then pre ++ s0 ++ [LF]
     else u "   " ++ pre ++ s0 ++ [LF])
    ++ concat (map continuation rest).
Proof.
  revert pre s0. induction rest as [|s1 rest IH]; intros pre s0 Hpre Hall.
  - inversion Hall; subst. simpl join. simpl concat. rewrite app_nil_r.
    rewrite app_assoc, (indent_line (pre ++ s0) [] _).
    + rewrite app_nil_r, <- !app_assoc. reflexivity.
    + rewrite no_linebreak_app, Hpre. assumption.
  - inversion Hall as [|? ? Hs0 Hrest]; subst.
    rewrite join_cons.
    replace (pre ++ (s0 ++ ([LF; LF] ++ u "       ")
                        ++ join ([LF; LF] ++ u "       ") (s1 :: rest))
                 ++ [LF])
      with ((pre ++ s0)
              ++ LF :: ([] ++ LF :: (u "       "
                   ++ join ([LF; LF] ++ u "       ") (s1 :: rest) ++ [LF])))
      by (rewrite <- !app_assoc; reflexivity).
    rewrite indent_line by (rewrite no_linebreak_app, Hpre; assumption).
    rewrite indent_line by reflexivity.
    rewrite IH by (auto; reflexivity).
    rewrite <- !app_assoc. f_equal.
    simpl. destruct (blank s1); reflexivity.
Qed.

Lemma cell_str_layout text :
  only_lf_breaks text = true -> cell (VStr text) = cell_layout text.
Proof.
  intros H. unfold cell, cell_layout, escape_col, str, format3, split_on.
  rewrite (replace_join _ [] text : replace LF _ text = _).
  pose proof (split_on_from_no_linebreak [] text eq_refl H) as Hall.
  destruct (split_on_from_cons LF [] text) as (s0 & rest & E).
  rewrite E in *. rewrite indent_escaped by (auto; reflexivity).
  simpl. rewrite <- ?app_assoc. reflexivity.
Qed.

Lemma no_linebreak_only_lf s : no_linebreak s = true -> only_lf_breaks s = true.
Proof.
  unfold no_linebreak, only_lf_breaks.
  induction s as [|c s IH]; simpl; [reflexivity|].
  intros H. apply andb_true_iff in H. destruct H as [Hc Hs].
  rewrite Hc, IH by assumption. reflexivity.
Qed.

Lemma split_on_from_no_sep cur s :
  no_linebreak s = true -> split_on_from LF cur s = [rev cur ++ s].
Proof.
  revert cur. induction s as [|c s IH]; intros cur H; simpl.
  - rewrite app_nil_r. reflexivity.
  - simpl in H. apply andb_true_iff in H. destruct H as [Hc Hs].
    destruct (N.eqb_spec c LF) as [->|_]; [discriminate Hc|].
    rewrite IH by assumption. simpl. rewrite <- app_assoc. reflexivity.
Qed.

Lemma cell_str_plain text :
  no_linebreak text = true -> cell (VStr text) = cell_marker ++ text ++ [LF].
Proof.
  intros H. rewrite cell_str_layout by (apply no_linebreak_only_lf, H).
  unfold cell_layout, split_on. rewrite split_on_from_no_sep by assumption.
  reflexivity.
Qed.

Lemma format_table_row_at before col after counter :
  format_table_row (before ++ col :: after) counter
  = format_table_row before counter ++ cell col ++ concat (map cell after).
Proof.
  rewrite !format_table_row_eq, map_app, concat_app. simpl.
  rewrite <- !app_assoc. reflexivity.
Qed.

(** C10: in [format_table_row] a column that is [None] comes out as the
    cell marker with nothing after it, wherever it stands in the row; a row
    whose category and count are both NULL renders to its sequence number
    and two empty cells. *)
Theorem format_table_row_none_is_empty_cell :
  (forall before after counter,
      format_table_row (before ++ VNone :: after) counter
      = format_table_row before counter
        ++ (cell_marker ++ [LF]) ++ concat (map cell after))
  /\ (forall counter,
         format_table_row [of_text None; of_int None] counter
         = row_head counter ++ (cell_marker ++ [LF]) ++ (cell_marker ++ [LF])).
Proof.
  split.
  - intros. rewrite format_table_row_at, cell_none. reflexivity.
  - intros. rewrite format_table_row_eq. reflexivity.
Qed.

(** C5, as the script behaves: in a cell whose only line boundaries are
    newlines, the text up to the first newline follows the cell marker, and
    every newline becomes an empty line followed by the rest of the text
    behind 10 spaces (7 when that rest is whitespace only); a cell with no
    line boundary at all is the marker, the text unchanged and a newline. *)
Theorem format_table_row_newline_layout before text after counter :
  only_lf_breaks text = true ->
  format_table_row (before ++ VStr text :: after) counter
  = format_table_row before counter
    ++ cell_layout text ++ concat (map cell after)
  /\ (no_linebreak text = true -> cell_layout text = cell_marker ++ text ++ [LF]).
Proof.
  intros H. split.
  - rewrite format_table_row_at, cell_str_layout by assumption. reflexivity.
  - intros Hn. rewrite <- cell_str_layout by assumption.
    apply cell_str_plain, Hn.
Qed.

Lemma format_table_row_newline_layout_witness :
  format_table_row ([VInt 7] ++ VStr (u "a" ++ [LF] ++ u "b") :: []) 1
  = format_table_row [VInt 7] 1
    ++ cell_layout (u "a" ++ [LF] ++ u "b") ++ concat (map cell []).
Proof.
  apply (format_table_row_newline_layout [VInt 7] (u "a" ++ [LF] ++ u "b") [] 1).
  reflexivity.
Defined.

(** C5, as worded, fails: the continuation of ['a\nb'] stands behind 10
    spaces, three columns to the right of the cell's content, and a cell
    with a carriage return but no newline is not emitted unchanged. *)
Lemma claimed_cell_fails :
  cell (VStr (u "a" ++ [LF] ++ u "b"))
  = u "     - a" ++ [LF; LF] ++ u "          b" ++ [LF]
  /\ cell (VStr (u "a" ++ [LF] ++ u "b"))
     <> claimed_cell (u "a" ++ [LF] ++ u "b")
  /\ cell (VStr (u "a" ++ [CR] ++ u "b"))
     <> claimed_cell (u "a" ++ [CR] ++ u "b").
Proof.
  repeat split; vm_compute; intros E; discriminate E.
Qed.

(** ** The text of the documents *)

Ltac layout :=
  rewrite <- ?app_assoc; vm_compute; reflexivity.

Lemma datasheet_rst_doc fetched l_name catcount :
  datasheet_rst fetched l_name catcount
  = Some (datasheet_doc (socname_line fetched) l_name catcount).
Proof.
  unfold datasheet_rst, datasheet_doc, header, body, community_block,
    index_directive.
  generalize (format_header l_name) (index_of l_name) (socname_line fetched).
  intros h i c. destruct catcount as [|r rows].
  - layout.
  - generalize (datasheet_of (r :: rows)). intros d.
    unfold table_directive. layout.
Qed.

Lemma tree_rst_doc title members maxdepth :
  tree_rst title members maxdepth = Some (tree_doc title members maxdepth).
Proof.
  unfold tree_rst, tree_doc.
  generalize (format_header title). intros h.
  layout.
Qed.

(** ** Tokens *)

Lemma no_space_rev s : no_space (rev s) = no_space s.
Proof.
  unfold no_space. induction s as [|c s IH]; simpl; [reflexivity|].
  rewrite forallb_app, IH. simpl. rewrite andb_true_r. apply andb_comm.
Qed.

Lemma split_from_tokens s cur :
  no_space cur = true -> Forall token (split_from cur s).
Proof.
  revert cur. induction s as [|c s IH]; intros cur Hcur; simpl.
  - destruct cur as [|x cur]; simpl; constructor; [|constructor].
    split.
    + intros E. apply (f_equal (@List.length N)) in E.
      rewrite length_app in E. simpl in E. lia.
    + change (rev cur ++ [x]) with (rev (x :: cur)).
      rewrite no_space_rev. assumption.
  - destruct (isspace c) eqn:Ec.
    + destruct cur as [|x cur]; simpl; [apply IH; reflexivity|].
      constructor; [|apply IH; reflexivity]. split.
      * intros E. apply (f_equal (@List.length N)) in E.
        rewrite length_app in E. simpl in E. lia.
      * change (rev cur ++ [x]) with (rev (x :: cur)).
        rewrite no_space_rev. assumption.
    + apply IH. simpl. rewrite Ec. assumption.
Qed.

Lemma split_tokens s : Forall token (split s).
Proof. apply split_from_tokens. reflexivity. Qed.

Lemma split_from_skip t cur rest :
  no_space t = true ->
  split_from cur (t ++ rest) = split_from (rev t ++ cur) rest.
Proof.
  revert cur. induction t as [|c t IH]; intros cur H; simpl; [reflexivity|].
  simpl in H. apply andb_true_iff in H. destruct H as [Hc Ht].
  apply negb_true_iff in Hc. rewrite Hc, IH by assumption.
  rewrite <- app_assoc. reflexivity.
Qed.

Lemma split_from_space cur rest :
  split_from cur (SP :: rest)
  = if nonempty cur then rev cur :: split_from [] rest
    else split_from [] rest.
Proof. reflexivity. Qed.

Lemma split_join toks :
  Forall token toks -> split (join (u " ") toks) = toks.
Proof.
  unfold split. induction 1 as [|t rest [Hne Hns] Hrest IH]; [reflexivity|].
  assert (Hrev : nonempty (rev t ++ []) = true).
  { rewrite app_nil_r. destruct t as [|c t]; [congruence|]. simpl.
    destruct (rev t); reflexivity. }
  destruct rest as [|t' rest].
  - simpl. rewrite <- (app_nil_r t) at 1.
    rewrite split_from_skip by assumption. simpl. rewrite Hrev.
    rewrite app_nil_r, rev_involutive. reflexivity.
  - rewrite join_cons, split_from_skip by assumption.
    change (u " " ++ join (u " ") (t' :: rest))
      with (SP :: join (u " ") (t' :: rest)).
    rewrite split_from_space, Hrev, IH.
    rewrite app_nil_r, rev_involutive. reflexivity.
Qed.

Lemma index_of_tokens l_name : split (index_of l_name) = tl (split l_name).
Proof.
  unfold index_of. apply split_join.
  pose proof (split_tokens l_name) as H.
  destruct (split l_name); simpl; [constructor|].
  inversion H; assumption.
Qed.

Lemma tokens_of_space c s toks :
  isspace c = true -> tokens_of s toks -> tokens_of (c :: s) toks.
Proof.
  intros Hc H. inversion H as [g Hg|g t rest toks' Hg Ht Hr Hrest]; subst.
  - apply tokens_none. simpl. rewrite Hc. exact Hg.
  - apply (tokens_next (c :: g) t rest toks'); auto.
    simpl. rewrite Hc. exact Hg.
Qed.

Lemma split_from_word r cur :
  nonempty cur = true ->
  exists t rest,
    r = t ++ rest /\ no_space t = true /\ starts_blank rest
    /\ split_from cur r = (rev cur ++ t) :: split_from [] rest
    /\ (List.length rest <= List.length r)%nat.
Proof.
  revert cur. induction r as [|c r IH]; intros cur Hcur.
  - exists [], []. simpl. rewrite Hcur, app_nil_r. auto.
  - destruct (isspace c) eqn:Ec.
    + exists [], (c :: r). simpl. rewrite Ec, Hcur, app_nil_r. auto.
    + destruct (IH (c :: cur) eq_refl) as (t & rest & -> & Ht & Hr & E & Hl).
      exists (c :: t), rest. simpl. rewrite Ec, E. simpl.
      rewrite <- app_assoc.
      repeat split; auto; simpl; lia.
Qed.

Lemma split_tokens_of_bounded n s :
  (List.length s <= n)%nat -> tokens_of s (split s).
Proof.
  unfold split. revert s. induction n as [|n IH]; intros s Hn.
  - destruct s; [|simpl in Hn; lia]. apply tokens_none. reflexivity.
  - destruct s as [|c r]; [apply tokens_none; reflexivity|].
    simpl in Hn. simpl. destruct (isspace c) eqn:Ec.
    + apply tokens_of_space; [exact Ec|]. apply IH. lia.
    + destruct (split_from_word r [c] eq_refl)
        as (t & rest & -> & Ht & Hr & E & Hl).
      rewrite E.
      apply (tokens_next [] (c :: t) rest (split_from [] rest)).
      * reflexivity.
      * split; [discriminate|]. simpl. rewrite Ec. exact Ht.
      * exact Hr.
      * apply IH. lia.
Qed.

(** [str.split] returns the whitespace-delimited tokens of its text. *)
Lemma split_tokens_of s : tokens_of s (split s).
Proof. apply (split_tokens_of_bounded (List.length s)). lia. Qed.

Lemma word_unique t t' rest rest' :
  no_space t = true -> no_space t' = true ->
  starts_blank rest -> starts_blank rest' ->
  t ++ rest = t' ++ rest' -> t = t' /\ rest = rest'.
Proof.
  revert t'. induction t as [|c t IH]; intros t' Ht Ht' Hr Hr' E.
  - destruct t' as [|c' t']; [auto|]. simpl in E. subst rest.
    simpl in Ht', Hr. rewrite Hr in Ht'. discriminate Ht'.
  - destruct t' as [|c' t'].
    + simpl in E. subst rest'. simpl in Ht, Hr'. rewrite Hr' in Ht.
      discriminate Ht.
    + simpl in E. inversion E; subst. simpl in Ht, Ht'.
      apply andb_true_iff in Ht. apply andb_true_iff in Ht'.
      destruct (IH t' (proj2 Ht) (proj2 Ht') Hr Hr' H1) as [-> ->]. auto.
Qed.

Lemma gap_unique g g' c c' w w' :
  blank g = true -> blank g' = true ->
  isspace c = false -> isspace c' = false ->
  g ++ c :: w = g' ++ c' :: w' -> g = g' /\ c :: w = c' :: w'.
Proof.
  intros Hg Hg' Hc Hc'. revert g' Hg'.
  induction g as [|x g IH]; intros g' Hg' E.
  - destruct g' as [|y g']; [auto|]. simpl in E. inversion E; subst.
    simpl in Hg'. rewrite Hc in Hg'. discriminate Hg'.
  - destruct g' as [|y g'].
    + simpl in E. inversion E; subst. simpl in Hg. rewrite Hc' in Hg.
      discriminate Hg.
    + simpl in E. inversion E; subst. simpl in Hg, Hg'.
      apply andb_true_iff in Hg. apply andb_true_iff in Hg'.
      destruct (IH (proj2 Hg) g' (proj2 Hg') H1) as [-> E']. auto.
Qed.

Lemma token_not_blank g t rest :
  token t -> blank (g ++ t ++ rest) = false.
Proof.
  intros [Hne Hns]. rewrite !blank_app.
  destruct t as [|c t]; [congruence|]. simpl in *.
  apply andb_true_iff in Hns. destruct Hns as [Hc _].
  apply negb_true_iff in Hc. rewrite Hc. simpl. apply andb_false_r.
Qed.

(** A text has one list of tokens only. *)
Lemma tokens_of_unique s a b : tokens_of s a -> tokens_of s b -> a = b.
Proof.
  intros Ha. revert b.
  induction Ha as [g Hg|g t rest toks Hg Ht Hr Hrest IH]; intros b Hb.
  - inversion Hb as [|g' t' rest' toks' Hg' Ht' Hr' Hrest' E]; subst;
      [reflexivity|].
    rewrite (token_not_blank g' t' rest' Ht') in Hg. discriminate Hg.
  - inversion Hb as [g' Hg' E|g' t' rest' toks' Hg' Ht' Hr' Hrest' E]; subst.
    + rewrite (token_not_blank g t rest Ht) in Hg'. discriminate Hg'.
    + destruct Ht as [Hne Hns], Ht' as [Hne' Hns'].
      destruct t as [|c t]; [congruence|].
      destruct t' as [|c' t']; [congruence|].
      simpl in Hns, Hns'.
      apply andb_true_iff in Hns. apply andb_true_iff in Hns'.
      destruct Hns as [Hc Hns], Hns' as [Hc' Hns'].
      apply negb_true_iff in Hc. apply negb_true_iff in Hc'.
      simpl in E.
      destruct (gap_unique g' g c' c (t' ++ rest') (t ++ rest)
                           Hg' Hg Hc' Hc E) as [-> E'].
      inversion E'; subst.
      destruct (word_unique t' t rest' rest Hns' Hns Hr' Hr H1) as [-> ->].
      f_equal. apply IH. exact Hrest'.
Qed.

Lemma join_spaced toks : join (u " ") toks = spaced toks.
Proof.
  destruct toks as [|t ts]; [reflexivity|]. simpl spaced.
  revert t. induction ts as [|t' ts IH]; intros t.
  - simpl. rewrite app_nil_r. reflexivity.
  - rewrite join_cons, IH. reflexivity.
Qed.

(** C6: the field of the index directive of a datasheet document, of
    either shape, is the locality's name without its first
    whitespace-delimited token.  The name has exactly one list of
    whitespace-delimited tokens (maximal runs of characters that are not
    whitespace); the field is the tokens after the first, written with one
    space between them, and these are in turn the tokens of the field. *)
Theorem index_field_drops_first_token fetched l_name catcount :
  datasheet_rst fetched l_name catcount
  = Some (index_directive (index_of l_name)
          ++ header (socname_line fetched) l_name ++ body catcount
          ++ [LF; LF])
  /\ (exists toks,
         tokens_of l_name toks
         /\ (forall toks', tokens_of l_name toks' -> toks' = toks)
         /\ index_of l_name = spaced (tl toks)
         /\ tokens_of (index_of l_name) (tl toks))
  /\ index_of l_name = join (u " ") (tl (split l_name))
  /\ split (index_of l_name) = tl (split l_name).
Proof.
  split; [apply datasheet_rst_doc|].
  split; [|split; [reflexivity|apply index_of_tokens]].
  exists (split l_name).
  split; [apply split_tokens_of|].
  split; [intros toks' H; apply (tokens_of_unique l_name); auto;
          apply split_tokens_of|].
  split; [apply join_spaced|].
  rewrite <- index_of_tokens. apply split_tokens_of.
Qed.

(** ** The queries *)

Lemma left_join_filter_left {L R} (on : L -> R -> bool) (p : L -> bool)
      (left : list L) (right : list R) :
  filter (fun lr => p (fst lr)) (left_join on left right)
  = left_join on (filter p left) right.
Proof.
  unfold left_join.
  set (g := fun l : L => match filter (on l) right with
                         | [] => [(l, None)]
                         | ms => map (fun r => (l, Some r)) ms
                         end).
  assert (E : forall x rows,
             filter (fun lr : L * option R => p (fst lr))
                    (map (fun r => (x, Some r)) rows)
             = if p x then map (fun r => (x, Some r)) rows else []).
  { intros x rows. induction rows as [|r rows IHr]; simpl.
    - destruct (p x); reflexivity.
    - rewrite IHr. destruct (p x); reflexivity. }
  assert (Hg : forall x, filter (fun lr => p (fst lr)) (g x)
                         = if p x then g x else []).
  { intros x. unfold g. destruct (filter (on x) right) as [|m ms].
    - simpl. destruct (p x); reflexivity.
    - apply E. }
  induction left as [|x left IH]; [reflexivity|].
  change (flat_map g (x :: left)) with (g x ++ flat_map g left).
  rewrite filter_app, IH, Hg.
  change (filter p (x :: left))
    with (if p x then x :: filter p left else filter p left).
  destruct (p x); reflexivity.
Qed.

Lemma filter_none {A} (p : A -> bool) (l : list A) :
  (forall x, In x l -> p x = false) -> filter p l = [].
Proof.
  induction l as [|x l IH]; intros H; [reflexivity|]. simpl.
  rewrite (H x) by (left; reflexivity).
  apply IH. intros y Hy. apply H. right. assumption.
Qed.

(** With unique keys, at most one row matches a key, and [find] gives
    it. *)
Lemma filter_unique_key {A} (key : A -> Z) (k : Z) (l : list A) :
  NoDup (map key l) ->
  filter (fun x => Z.eqb k (key x)) l
  = match find (fun x => Z.eqb k (key x)) l with
    | Some x => [x]
    | None => []
    end.
Proof.
  induction l as [|x l IH]; intros Hnd; [reflexivity|].
  simpl in *. inversion Hnd as [|? ? Hnotin Hnd']; subst.
  destruct (Z.eqb_spec k (key x)) as [->|Hne].
  - f_equal. apply filter_none. intros y Hy.
    apply Z.eqb_neq. intros E. apply Hnotin. rewrite E.
    apply in_map. assumption.
  - apply IH. assumption.
Qed.

Lemma left_join_unique {L R} (lkey : L -> Z) (rkey : R -> Z)
      (left : list L) (right : list R) :
  NoDup (map rkey right) ->
  left_join (fun l r => Z.eqb (lkey l) (rkey r)) left right
  = map (fun l => (l, find (fun r => Z.eqb (lkey l) (rkey r)) right)) left.
Proof.
  intros Hnd. unfold left_join.
  set (g := fun l : L =>
              match filter (fun r => Z.eqb (lkey l) (rkey r)) right with
              | [] => [(l, None)]
              | ms => map (fun r => (l, Some r)) ms
              end).
  induction left as [|x left IH]; [reflexivity|].
  change (flat_map g (x :: left)) with (g x ++ flat_map g left).
  rewrite IH. unfold g.
  rewrite (filter_unique_key rkey (lkey x) right Hnd).
  destruct (find _ right) eqn:E; simpl; rewrite E; reflexivity.
Qed.

Lemma insert_row_perm {A} le (key : A -> option pystr) x l :
  Permutation (insert_row le key x l) (x :: l).
Proof.
  induction l as [|y l IH]; simpl; [reflexivity|].
  destruct (key_leb le (key x) (key y)); [reflexivity|].
  rewrite IH. apply perm_swap.
Qed.

Lemma order_by_perm {A} le (key : A -> option pystr) l :
  Permutation (order_by le key l) l.
Proof.
  induction l as [|x l IH]; simpl; [reflexivity|].
  rewrite insert_row_perm, IH. reflexivity.
Qed.

Lemma order_by_nil {A} le (key : A -> option pystr) l :
  order_by le key l = [] <-> l = [].
Proof.
  split; intros H.
  - apply Permutation_nil. rewrite <- H. apply order_by_perm.
  - subst. reflexivity.
Qed.

Lemma key_leb_total le a b :
  (forall x y, le x y = true \/ le y x = true) ->
  key_leb le a b = false -> key_leb le b a = true.
Proof.
  intros Htot. destruct a as [x|], b as [y|]; simpl; try congruence.
  intros H. destruct (Htot x y); congruence.
Qed.

Section Sorting.
Context {A : Type} (le : pystr -> pystr -> bool) (key : A -> option pystr).
Hypothesis le_total : forall x y, le x y = true \/ le y x = true.

Local Abbreviation ordered := (ordered_by le key).

Lemma insert_row_hd x l a :
  ordered a x -> HdRel ordered a l -> HdRel ordered a (insert_row le key x l).
Proof.
  intros Hax Hal. destruct l as [|y l]; simpl.
  - constructor. assumption.
  - destruct (key_leb le (key x) (key y)); constructor; auto.
    inversion Hal; assumption.
Qed.

Lemma insert_row_sorted x l :
  Sorted ordered l -> Sorted ordered (insert_row le key x l).
Proof.
  induction 1 as [|y l Hs IH Hhd]; simpl.
  - repeat constructor.
  - destruct (key_leb le (key x) (key y)) eqn:E.
    + constructor; [constructor; assumption|constructor; exact E].
    + constructor; [exact IH|].
      apply insert_row_hd; [|assumption].
      apply key_leb_total; assumption.
Qed.

Lemma order_by_sorted l : Sorted ordered (order_by le key l).
Proof.
  induction l as [|x l IH]; simpl; [constructor|].
  apply insert_row_sorted. exact IH.
Qed.

End Sorting.

(** The count query returns the Count rows of the locality, each once
    with the name of its category, in some order. *)
Lemma select_catcount_rows db loc :
  NoDup (map c_id (category db)) ->
  select_catcount db loc
  = order_by (collate db) cc_category
             (map (fetched_row db) (counts_of db loc)).
Proof.
  intros Hnd. unfold select_catcount, counts_of.
  rewrite (left_join_filter_left _ (fun n => Z.eqb (n_locality_id n) loc)).
  rewrite (left_join_unique n_category_id c_id _ _ Hnd).
  rewrite map_map. reflexivity.
Qed.

Lemma select_catcount_perm db loc :
  NoDup (map c_id (category db)) ->
  Permutation (select_catcount db loc)
              (map (fetched_row db) (counts_of db loc)).
Proof.
  intros Hnd. rewrite select_catcount_rows by assumption.
  apply order_by_perm.
Qed.

Lemma left_join_nil {L R} (on : L -> R -> bool) left right :
  left_join on left right = [] <-> left = [].
Proof.
  split; intros H; [|subst; reflexivity].
  destruct left as [|x left]; [reflexivity|].
  unfold left_join in H. simpl in H.
  destruct (filter (on x) right); discriminate H.
Qed.

Lemma select_catcount_nil db loc :
  select_catcount db loc = [] <-> counts_of db loc = [].
Proof.
  unfold select_catcount, counts_of.
  rewrite order_by_nil.
  rewrite (left_join_filter_left _ (fun n => Z.eqb (n_locality_id n) loc)).
  split; intros H.
  - apply map_eq_nil in H. apply left_join_nil in H. exact H.
  - rewrite H. reflexivity.
Qed.

(** ** The two loops of the datasheet *)

Lemma rows_fold rows st :
  fold_left row_step rows st
  = {| table := table st
                ++ concat (map table_row (number_from (counter st) rows));
       comments := comments st ++ comments_of rows;
       counter := (counter st + Z.of_nat (List.length rows))%Z |}.
Proof.
  revert st. induction rows as [|r rows IH]; intros st.
  - simpl. rewrite !app_nil_r, Z.add_0_r. destruct st; reflexivity.
  - cbn [fold_left]. rewrite IH. destruct r as [[category cnt] comment].
    cbn [number_from map concat List.length].
    unfold row_step. cbn [table comments counter].
    f_equal.
    + rewrite <- app_assoc. reflexivity.
    + unfold comments_of. cbn [flat_map cc_comment snd].
      destruct comment; rewrite <- ?app_assoc; reflexivity.
    + lia.
Qed.

Lemma rows_loop_eq rows :
  rows_loop rows
  = {| table := concat (map table_row (number_from 1 rows));
       comments := comments_of rows;
       counter := (1 + Z.of_nat (List.length rows))%Z |}.
Proof. unfold rows_loop. rewrite rows_fold. reflexivity. Qed.

Lemma comments_fold cs txt k :
  fold_left comment_step cs (txt, k)
  = (txt ++ concat (map footnote (number_from k cs)),
     (k + Z.of_nat (List.length cs))%Z).
Proof.
  revert txt k. induction cs as [|c cs IH]; intros txt k.
  - simpl. rewrite app_nil_r, Z.add_0_r. reflexivity.
  - cbn [fold_left comment_step]. rewrite IH.
    cbn [number_from map concat List.length]. f_equal; [|lia].
    unfold footnote at 2. cbn [fst snd].
    rewrite <- !app_assoc. reflexivity.
Qed.

Lemma comments_loop_eq cs :
  comments_loop cs = concat (map footnote (number_from 1 cs)).
Proof. unfold comments_loop. rewrite comments_fold. reflexivity. Qed.

Lemma datasheet_of_eq rows :
  datasheet_of rows
  = concat (map table_row (number_from 1 rows)) ++ notes rows.
Proof.
  unfold datasheet_of, notes, footnotes. rewrite rows_loop_eq.
  cbn [table comments].
  destruct (comments_of rows) as [|c cs].
  - simpl. rewrite app_nil_r. reflexivity.
  - cbn [List.length Nat.ltb Nat.leb]. rewrite comments_loop_eq. reflexivity.
Qed.

Lemma number_from_nth {A} (xs : list A) k i x :
  nth_error xs i = Some x ->
  nth_error (number_from k xs) i = Some ((k + Z.of_nat i)%Z, x).
Proof.
  revert k i. induction xs as [|y xs IH]; intros k i H.
  - destruct i; discriminate H.
  - destruct i as [|i]; simpl in *.
    + inversion H; subst. rewrite Z.add_0_r. reflexivity.
    + rewrite (IH (k + 1)%Z i H). do 2 f_equal. lia.
Qed.

Lemma number_from_length {A} (xs : list A) k :
  List.length (number_from k xs) = List.length xs.
Proof.
  revert k. induction xs as [|y xs IH]; intros k; simpl; [reflexivity|].
  rewrite IH. reflexivity.
Qed.

(** ** The datasheet document *)

Lemma data_table_doc fetched l_name rows :
  rows <> [] ->
  datasheet_rst fetched l_name rows
  = Some (index_directive (index_of l_name)
          ++ header (socname_line fetched) l_name
          ++ (table_directive
              ++ concat (map table_row (number_from 1 rows)) ++ notes rows)
          ++ [LF; LF]).
Proof.
  intros Hne. rewrite datasheet_rst_doc. unfold datasheet_doc, body.
  destruct rows as [|r rows]; [congruence|].
  rewrite datasheet_of_eq. reflexivity.
Qed.

Lemma empty_data_doc fetched l_name :
  datasheet_rst fetched l_name []
  = Some (index_directive (index_of l_name)
          ++ header (socname_line fetched) l_name
          ++ no_data_sentence ++ [LF; LF]).
Proof. rewrite datasheet_rst_doc. unfold datasheet_doc, body. reflexivity. Qed.

(** C7: a locality without Count rows gets the empty-data document: after
    the index directive it has the very title and community section the
    data-table document has, then the fixed sentence and nothing else; the
    empty-data template holds neither the table directive nor a list
    row. *)
Theorem empty_locality_gets_empty_document db loc fetched l_name :
  counts_of db loc = [] ->
  datasheet_rst fetched l_name (select_catcount db loc)
  = Some (index_directive (index_of l_name)
          ++ header (socname_line fetched) l_name
          ++ no_data_sentence ++ [LF; LF])
  /\ (forall rows,
         rows <> [] ->
         datasheet_rst fetched l_name rows
         = Some (index_directive (index_of l_name)
                 ++ header (socname_line fetched) l_name
                 ++ (table_directive
                     ++ concat (map table_row (number_from 1 rows))
                     ++ notes rows)
                 ++ [LF; LF]))
  /\ occurs (u "list-table") datasheet_empty_templ = false
  /\ occurs (u "* - ") datasheet_empty_templ = false.
Proof.
  intros H. apply select_catcount_nil in H. rewrite H.
  split; [apply empty_data_doc|].
  split; [intros rows Hne; apply data_table_doc, Hne|].
  split; vm_compute; reflexivity.
Qed.

Lemma empty_locality_gets_empty_document_witness :
  datasheet_rst (Some []) (u "der. Upper  Ford") (select_catcount Sample.db 2)
  = Some (index_directive (index_of (u "der. Upper  Ford"))
          ++ header (socname_line (Some [])) (u "der. Upper  Ford")
          ++ no_data_sentence ++ [LF; LF]).
Proof.
  apply (empty_locality_gets_empty_document
           Sample.db 2 (Some []) (u "der. Upper  Ford")).
  reflexivity.
Defined.

(** ** The community of a locality *)

Lemma filter_key_in {A} (key : A -> Z) (x : A) (l : list A) :
  NoDup (map key l) -> In x l ->
  filter (fun y => Z.eqb (key y) (key x)) l = [x].
Proof.
  induction l as [|y l IH]; intros Hnd Hin; [contradiction|].
  simpl in Hnd. inversion Hnd as [|? ? Hnotin Hnd']; subst.
  simpl. destruct Hin as [->|Hin].
  - rewrite Z.eqb_refl. f_equal. apply filter_none. intros z Hz.
    apply Z.eqb_neq. intros E. apply Hnotin. rewrite <- E.
    apply in_map. assumption.
  - destruct (Z.eqb_spec (key y) (key x)) as [E|_].
    + exfalso. apply Hnotin. rewrite E. apply in_map. assumption.
    + apply IH; assumption.
Qed.

Lemma find_filter {A} (p : A -> bool) (l : list A) :
  find p l = hd_error (filter p l).
Proof.
  induction l as [|x l IH]; [reflexivity|]. simpl.
  destruct (p x); [reflexivity|exact IH].
Qed.

Lemma select_society_name_head db l :
  NoDup (map l_id (locality db)) -> In l (locality db) ->
  exists rest,
    select_society_name db (l_id l)
    = option_map s_name (community_of db l) :: rest.
Proof.
  intros Hnd Hin. unfold select_society_name, community_of.
  rewrite (left_join_filter_left _ (fun r => Z.eqb (l_id r) (l_id l))).
  rewrite (filter_key_in l_id l _ Hnd Hin).
  unfold left_join. cbn [flat_map]. rewrite app_nil_r, find_filter.
  destruct (filter _ (society db)) as [|m ms]; simpl; eauto.
Qed.

Lemma socname_line_community db l :
  socname_line (option_map s_name (community_of db l)) = community_line db l.
Proof.
  unfold socname_line, soc_name_of, community_line, truthy.
  destruct (community_of db l) as [s|]; simpl; [|reflexivity].
  destruct (s_name s); reflexivity.
Qed.

(** C2, as the script behaves: the community-name line is the community's
    name followed by a full stop; when the locality has no community, or
    its community's name is empty, it is the fixed label followed by a full
    stop. *)
Theorem community_line_rendered db l catcount :
  NoDup (map l_id (locality db)) ->
  In l (locality db) ->
  exists fetched rest,
    select_society_name db (l_id l) = fetched :: rest
    /\ datasheet_rst fetched (l_name l) catcount
       = Some (index_directive (index_of (l_name l))
               ++ header (community_line db l) (l_name l)
               ++ body catcount ++ [LF; LF]).
Proof.
  intros Hnd Hin.
  destruct (select_society_name_head db l Hnd Hin) as [rest E].
  exists (option_map s_name (community_of db l)), rest.
  split; [exact E|].
  rewrite datasheet_rst_doc, socname_line_community. reflexivity.
Qed.

Lemma sample_locality_ids : NoDup (map l_id (locality Sample.db)).
Proof.
  simpl. repeat constructor; simpl; intuition discriminate.
Qed.

Lemma community_line_rendered_witness :
  exists fetched rest,
    select_society_name Sample.db (l_id Sample.locality_E) = fetched :: rest
    /\ datasheet_rst fetched (l_name Sample.locality_E) []
       = Some (index_directive (index_of (l_name Sample.locality_E))
               ++ header (community_line Sample.db Sample.locality_E)
                         (l_name Sample.locality_E)
               ++ body [] ++ [LF; LF]).
Proof.
  apply (community_line_rendered Sample.db Sample.locality_E []).
  - exact sample_locality_ids.
  - simpl. auto.
Defined.

(** C2, as worded, fails: for a locality whose community has an empty
    name the line is the label with a full stop, not the community's name;
    and for a community named Foo the line is that name with a full stop
    after it. *)
Lemma claimed_community_line_fails :
  (select_society_name Sample.db 2 = [Some []]
   /\ socname_line (Some []) = undefined_label ++ u "."
   /\ socname_line (Some [])
      <> claimed_community_line Sample.db Sample.locality_E)
  /\ (select_society_name Sample.db 3 = [Some (u "Foo")]
      /\ socname_line (Some (u "Foo")) = u "Foo."
      /\ socname_line (Some (u "Foo"))
         <> claimed_community_line Sample.db Sample.locality_F).
Proof.
  repeat split; vm_compute; intros E; discriminate E.
Qed.

(** ** Table rows *)

Lemma table_row_nth rows i row :
  nth_error rows i = Some row ->
  nth_error (map table_row (number_from 1 rows)) i
  = Some (row_head (1 + Z.of_nat i)
          ++ concat (map cell (row_cols row))).
Proof.
  intros H. rewrite nth_error_map, (number_from_nth rows 1 i row H).
  simpl. unfold table_row. rewrite format_table_row_eq. reflexivity.
Qed.

Lemma sample_category_ids : NoDup (map c_id (category Sample.db)).
Proof.
  simpl. repeat constructor; simpl; intuition discriminate.
Qed.

Lemma lex_leb_total a b :
  Sample.lex_leb a b = true \/ Sample.lex_leb b a = true.
Proof.
  revert b. induction a as [|x a IH]; intros [|y b]; simpl; auto.
  destruct (N.ltb_spec x y); [auto|].
  destruct (N.ltb_spec y x); [auto|].
  assert (x = y) by lia. subst. rewrite N.eqb_refl. simpl. apply IH.
Qed.

(** C3: for a locality with at least one Count row (category ids being
    unique and the collation total), the rows the table is built from are
    the Count rows of the locality, each once; they stand in ascending
    order of category name; the table of the document is the rendering of
    these rows one after the other, and the row at position i (from 0)
    begins with the sequence number i+1. *)
Theorem table_rows_sorted_and_numbered db loc fetched l_name :
  NoDup (map c_id (category db)) ->
  collation_total db ->
  counts_of db loc <> [] ->
  let rows := select_catcount db loc in
  Permutation rows (map (fetched_row db) (counts_of db loc))
  /\ List.length (map table_row (number_from 1 rows))
     = List.length (counts_of db loc)
  /\ Sorted (fun a b => name_le db (cc_category a) (cc_category b)) rows
  /\ datasheet_rst fetched l_name rows
     = Some (index_directive (index_of l_name)
             ++ header (socname_line fetched) l_name
             ++ (table_directive
                 ++ concat (map table_row (number_from 1 rows))
                 ++ notes rows)
             ++ [LF; LF])
  /\ (forall i row,
         nth_error rows i = Some row ->
         nth_error (map table_row (number_from 1 rows)) i
         = Some (row_head (1 + Z.of_nat i)
                 ++ concat (map cell (row_cols row)))).
Proof.
  intros Hnd Htot Hne rows. subst rows.
  pose proof (select_catcount_perm db loc Hnd) as Hperm.
  split; [exact Hperm|].
  split.
  { rewrite length_map, number_from_length.
    rewrite (Permutation_length Hperm). apply length_map. }
  split.
  { rewrite select_catcount_rows by assumption.
    apply (order_by_sorted (collate db) cc_category Htot). }
  split.
  { apply data_table_doc. rewrite select_catcount_nil. exact Hne. }
  intros i row. apply table_row_nth.
Qed.

Lemma table_rows_sorted_and_numbered_witness :
  let rows := select_catcount Sample.db 1 in
  Permutation rows (map (fetched_row Sample.db) (counts_of Sample.db 1))
  /\ List.length (map table_row (number_from 1 rows))
     = List.length (counts_of Sample.db 1)
  /\ Sorted (fun a b => name_le Sample.db (cc_category a) (cc_category b))
            rows
  /\ datasheet_rst None (u "Locality D") rows
     = Some (index_directive (index_of (u "Locality D"))
             ++ header (socname_line None) (u "Locality D")
             ++ (table_directive
                 ++ concat (map table_row (number_from 1 rows))
                 ++ notes rows)
             ++ [LF; LF])
  /\ (forall i row,
         nth_error rows i = Some row ->
         nth_error (map table_row (number_from 1 rows)) i
         = Some (row_head (1 + Z.of_nat i)
                 ++ concat (map cell (row_cols row)))).
Proof.
  apply (table_rows_sorted_and_numbered Sample.db 1 None (u "Locality D")).
  - exact sample_category_ids.
  - exact lex_leb_total.
  - discriminate.
Defined.

(** ** Footnotes *)

Lemma comments_of_fetched db ns :
  List.length (comments_of (map (fetched_row db) ns))
  = List.length (filter has_comment ns).
Proof.
  unfold comments_of, has_comment.
  induction ns as [|n ns IH]; [reflexivity|].
  cbn [map flat_map filter]. rewrite length_app, IH.
  unfold fetched_row at 1, cc_comment at 1. cbn [snd].
  destruct (n_comment n); reflexivity.
Qed.

(** C1: for a locality with at least one Count row (category ids being
    unique), the footnotes of its document are as many as its Count rows
    whose comment field is filled (not NULL); they are numbered 1, 2, ...
    and carry the comments in
    the order the rows come in the sorted iteration; the document ends with
    the table followed by the note block that holds them (or by nothing
    when there are none). *)
Theorem footnotes_counted_and_numbered db loc fetched l_name :
  NoDup (map c_id (category db)) ->
  counts_of db loc <> [] ->
  let rows := select_catcount db loc in
  List.length (footnotes rows)
  = List.length (filter has_comment (counts_of db loc))
  /\ (forall i c,
         nth_error (comments_of rows) i = Some c ->
         nth_error (footnotes rows) i = Some ((1 + Z.of_nat i)%Z, c))
  /\ datasheet_rst fetched l_name rows
     = Some (index_directive (index_of l_name)
             ++ header (socname_line fetched) l_name
             ++ (table_directive
                 ++ concat (map table_row (number_from 1 rows))
                 ++ match footnotes rows with
                    | [] => []
                    | _ :: _ =>
                        [LF; LF] ++ u ".. note:: " ++ [LF; LF]
                        ++ format3 (concat (map footnote (footnotes rows)))
                    end)
             ++ [LF; LF]).
Proof.
  intros Hnd Hne rows. subst rows.
  split.
  { unfold footnotes. rewrite number_from_length.
    rewrite <- comments_of_fetched with (db := db).
    apply Permutation_length. unfold comments_of.
    apply Permutation_flat_map, select_catcount_perm, Hnd. }
  split.
  { intros i c H. apply number_from_nth, H. }
  rewrite data_table_doc by (rewrite select_catcount_nil; exact Hne).
  unfold notes, note_block. reflexivity.
Qed.

Lemma footnotes_counted_and_numbered_witness :
  let rows := select_catcount Sample.db 1 in
  List.length (footnotes rows)
  = List.length (filter has_comment (counts_of Sample.db 1)).
Proof.
  apply (footnotes_counted_and_numbered Sample.db 1 None (u "Locality D")).
  - exact sample_category_ids.
  - discriminate.
Defined.

(** C1, as worded, fails: a Count row whose comment is the empty text has
    no non-empty comment, yet its comment is not NULL, so the loop collects
    it and the document carries one footnote, numbered 1, with nothing
    behind its marker. *)
Lemma claimed_footnote_count_fails :
  let rows := select_catcount Sample.db_empty_comment 1 in
  NoDup (map c_id (category Sample.db_empty_comment))
  /\ counts_of Sample.db_empty_comment 1 <> []
  /\ comments (rows_loop rows) = [[]]
  /\ List.length (footnotes rows) = 1%nat
  /\ List.length (filter nonempty_comment
                         (counts_of Sample.db_empty_comment 1)) = 0%nat
  /\ List.length (footnotes rows)
     <> List.length (filter nonempty_comment
                            (counts_of Sample.db_empty_comment 1))
  /\ datasheet_of rows
     = table (rows_loop rows) ++ [LF; LF]
       ++ u ".. note:: " ++ [LF; LF] ++ u "   (1*) " ++ [LF; LF]
  /\ datasheet_rst None (u "Locality D") rows
     = Some (index_directive (index_of (u "Locality D"))
             ++ header (socname_line None) (u "Locality D")
             ++ (table_directive ++ datasheet_of rows)
             ++ [LF; LF]).
Proof.
  cbv zeta. split; [exact sample_category_ids|].
  repeat split; try (vm_compute; reflexivity);
    vm_compute; intros E; discriminate E.
Qed.



Lemma comments_of_in rows r c :
  In r rows -> cc_comment r = Some c -> In c (comments_of rows).
Proof.
  intros Hin Hc. unfold comments_of. apply in_flat_map.
  exists r. split; [assumption|]. rewrite Hc. left. reflexivity.
Qed.


Lemma number_from_in {A} (xs : list A) k x :
  In x xs -> exists i, In (i, x) (number_from k xs).
Proof.
  revert k. induction xs as [|y xs IH]; intros k Hin; [contradiction|].
  destruct Hin as [->|Hin].
  - exists k. left. reflexivity.
  - destruct (IH (k + 1)%Z Hin) as [i Hi]. exists i. right. assumption.
Qed.







(** ** Paths *)

Lemma eqb_eq (a b : pystr) : Py.eqb a b = true <-> a = b.
Proof.
  revert b. induction a as [|x a IH]; intros [|y b]; simpl;
    try (split; [discriminate|discriminate]); [tauto|].
  rewrite andb_true_iff, N.eqb_eq, IH. split.
  - intros [-> ->]. reflexivity.
  - intros E. inversion E. auto.
Qed.

Lemma path_eqb_eq p q : path_eqb p q = true <-> p = q.
Proof.
  revert q. induction p as [|x p IH]; intros [|y q]; simpl;
    try (split; [discriminate|discriminate]); [tauto|].
  rewrite andb_true_iff, eqb_eq, IH. split.
  - intros [-> ->]. reflexivity.
  - intros E. inversion E. auto.
Qed.

Lemma path_eqb_refl p : path_eqb p p = true.
Proof. apply path_eqb_eq. reflexivity. Qed.

Lemma is_prefix_spec p q : is_prefix p q = true <-> exists r, q = p ++ r.
Proof.
  revert q. induction p as [|x p IH]; intros q; simpl.
  - split; eauto.
  - destruct q as [|y q].
    + split; [discriminate|intros [r E]; discriminate E].
    + rewrite andb_true_iff, eqb_eq, IH. split.
      * intros [-> [r ->]]. eauto.
      * intros [r E]. inversion E. eauto.
Qed.

Lemma strict_prefix_spec p q :
  strict_prefix p q = true <-> exists x r, q = p ++ x :: r.
Proof.
  unfold strict_prefix. rewrite andb_true_iff, negb_true_iff, is_prefix_spec.
  split.
  - intros [[r ->] Hne]. destruct r as [|x r]; [|eauto].
    rewrite app_nil_r, path_eqb_refl in Hne. discriminate Hne.
  - intros (x & r & ->). split; [eauto|].
    apply not_true_iff_false. rewrite path_eqb_eq. intros E.
    apply (f_equal (@List.length pystr)) in E.
    rewrite length_app in E. simpl in E. lia.
Qed.

Lemma below_not_above root p :
  is_prefix root p = true -> strict_prefix p root = false.
Proof.
  intros H. apply is_prefix_spec in H. destruct H as [r ->].
  apply not_true_iff_false. rewrite strict_prefix_spec.
  intros (x & r' & E). apply (f_equal (@List.length pystr)) in E.
  rewrite !length_app in E. simpl in E. lia.
Qed.

Lemma is_prefix_refl p : is_prefix p p = true.
Proof. apply is_prefix_spec. exists []. rewrite app_nil_r. reflexivity. Qed.

Lemma prefixes_comparable root q p :
  is_prefix root p = true -> is_prefix q p = true ->
  is_prefix root q = false -> strict_prefix q root = true.
Proof.
  rewrite !is_prefix_spec. intros [a ->] [b E] Hnot.
  apply strict_prefix_spec.
  apply app_eq_app in E. destruct E as [l [[E1 E2]|[E1 E2]]].
  - subst. destruct l as [|x l]; [|eauto].
    rewrite app_nil_r, is_prefix_refl in Hnot. discriminate Hnot.
  - subst. exfalso. apply not_true_iff_false in Hnot. apply Hnot.
    apply is_prefix_spec. eauto.
Qed.

Lemma ancestors_strict q p :
  strict_prefix q p = true -> In q (ancestors p).
Proof.
  rewrite strict_prefix_spec. intros (x & r & ->).
  induction q as [|y q IH]; simpl.
  - left. reflexivity.
  - right. apply in_map. exact IH.
Qed.

Lemma is_prefix_app root p r :
  is_prefix root p = true -> is_prefix root (p ++ r) = true.
Proof.
  rewrite !is_prefix_spec. intros [a ->]. exists (a ++ r).
  rewrite app_assoc. reflexivity.
Qed.

Lemma below_neq root p x r :
  is_prefix root p = true -> path_eqb root (p ++ x :: r) = false.
Proof.
  intros H. apply is_prefix_spec in H. destruct H as [a ->].
  apply not_true_iff_false. rewrite path_eqb_eq. intros E.
  apply (f_equal (@List.length pystr)) in E.
  rewrite !length_app in E. simpl in E. lia.
Qed.

(** ** Steps of the walk *)

Section Walk.
Variable root : path.

Lemma similar_refl s : similar root s s.
Proof. intros p. left. reflexivity. Qed.

Lemma similar_outside_refl s : similar_outside root s s.
Proof. intros p _. left. reflexivity. Qed.

Lemma similar_outside_trans s t w :
  similar_outside root s t -> similar_outside root t w ->
  similar_outside root s w.
Proof.
  intros Hst Htw p Hp.
  destruct (Hst p Hp) as [E|(Ha & Hs & Ht)];
    destruct (Htw p Hp) as [E'|(Ha' & Ht' & Hw)].
  - left. congruence.
  - right. rewrite E. auto.
  - right. rewrite <- E'. auto.
  - congruence.
Qed.

Lemma sound_ret {A} (a : A) : sound root (ret a).
Proof.
  unfold sound, ret. simpl. repeat split; auto using similar_outside_refl.
Qed.

Lemma sound_raise {A} f : sound root (@raise A f).
Proof.
  unfold sound, raise. simpl. repeat split; auto using similar_outside_refl.
Qed.

Lemma sound_bind {A B} (m : M A) (k : A -> M B) :
  sound root m -> (forall a, sound root (k a)) -> sound root (bind m k).
Proof.
  intros (M1 & M2 & M3 & M4) K. unfold sound, bind. repeat split.
  - destruct (M1 s t H) as [Ho Hs].
    destruct (m s) as [[a|f] s1], (m t) as [[a'|f'] t1];
      simpl in *; try discriminate; [|congruence].
    inversion Ho; subst. apply (K a'). exact Hs.
  - destruct (M1 s t H) as [Ho Hs].
    destruct (m s) as [[a|f] s1], (m t) as [[a'|f'] t1];
      simpl in *; try discriminate; [|exact Hs].
    inversion Ho; subst. apply (K a'). exact Hs.
  - intros s Hs. specialize (M2 s Hs).
    destruct (m s) as [[a|f] s1]; simpl in *; [|exact M2].
    apply (K a). exact M2.
  - intros s. specialize (M3 s).
    destruct (m s) as [[a|f] s1]; simpl in *; [|exact M3].
    eapply similar_outside_trans; [exact M3|]. apply (K a).
  - intros s Hs. specialize (M4 s Hs).
    destruct (m s) as [[a|f] s1]; simpl in *; [|exact M4].
    apply (K a). exact M4.
Qed.

Lemma sound_for_each {A S} (xs : list A) (body : A -> S -> M S) acc :
  (forall x acc', sound root (body x acc')) ->
  sound root (for_each xs body acc).
Proof.
  intros Hbody. revert acc. induction xs as [|x xs IH]; intros acc; simpl.
  - apply sound_ret.
  - apply sound_bind; [apply Hbody|exact IH].
Qed.

Lemma existsb_file_similar s t l :
  similar root s t ->
  existsb (fun a => is_file (s a)) l = existsb (fun a => is_file (t a)) l.
Proof.
  intros Hst. induction l as [|a l IH]; [reflexivity|]. simpl.
  rewrite IH. f_equal.
  destruct (Hst a) as [E|(_ & Hs & Ht)]; [rewrite E|rewrite Hs, Ht];
    reflexivity.
Qed.

Lemma similar_below s t p :
  similar root s t -> is_prefix root p = true -> s p = t p.
Proof.
  intros Hst Hp. destruct (Hst p) as [E|(Ha & _)]; [exact E|].
  rewrite (below_not_above root p Hp) in Ha. discriminate Ha.
Qed.

Lemma sound_make_dirs self p :
  is_prefix root p = true -> sound root (make_dirs self p).
Proof.
  intros Hp. unfold sound, make_dirs, os_makedirs. repeat split.
  - rewrite (similar_below s t p H Hp), (existsb_file_similar s t _ H).
    destruct (_ || _); reflexivity.
  - rewrite (similar_below s t p H Hp), (existsb_file_similar s t _ H).
    destruct (_ || _); simpl; [exact H|].
    intros q. destruct (is_prefix q p); [left; reflexivity|apply H].
  - intros s Hs. destruct (_ || _); simpl; [exact Hs|].
    intros q x Hq.
    destruct (is_prefix q p) eqn:Eq; [reflexivity|].
    destruct (is_prefix (q ++ [x]) p) eqn:Eqx.
    + apply is_prefix_spec in Eqx. destruct Eqx as [r ->].
      rewrite <- app_assoc in Eq.
      rewrite (proj2 (is_prefix_spec q (q ++ [x] ++ r))) in Eq by eauto.
      discriminate Eq.
    + apply Hs in Hq. exact Hq.
  - intros s. destruct (_ || _) eqn:Ec; simpl;
      [apply similar_outside_refl|].
    intros q Hq. destruct (is_prefix q p) eqn:Eq; [|left; reflexivity].
    pose proof (prefixes_comparable root q p Hp Eq Hq) as Habove.
    apply orb_false_iff in Ec. destruct Ec as [_ Hanc].
    assert (Hin : In q (ancestors p)).
    { apply ancestors_strict. apply strict_prefix_spec in Habove.
      destruct Habove as (x & r & ->).
      apply is_prefix_spec in Hp. destruct Hp as [r' ->].
      apply strict_prefix_spec. exists x, (r ++ r').
      rewrite <- app_assoc. reflexivity. }
    assert (Hf : is_file (s q) = false).
    { destruct (is_file (s q)) eqn:E; [|reflexivity].
      rewrite <- Hanc. symmetry. apply existsb_exists. eauto. }
    destruct (s q) as [[|c]|]; [left; reflexivity|discriminate Hf|].
    right. auto.
  - intros s Hs. destruct (_ || _); simpl; [exact Hs|].
    rewrite Hp. reflexivity.
Qed.

Lemma sound_file_write self pdir x rst :
  is_prefix root pdir = true ->
  sound root (file_write self (pdir ++ [x]) rst).
Proof.
  intros Hp.
  assert (Hfn : is_prefix root (pdir ++ [x]) = true)
    by (apply is_prefix_app, Hp).
  unfold sound, file_write, os_write. rewrite removelast_last.
  repeat split.
  - rewrite (similar_below s t _ H Hp), (similar_below s t _ H Hfn).
    destruct (_ && _); reflexivity.
  - rewrite (similar_below s t _ H Hp), (similar_below s t _ H Hfn).
    destruct (_ && _); simpl; [|exact H].
    intros q. destruct (path_eqb q (pdir ++ [x]));
      [left; reflexivity|apply H].
  - intros s Hs. destruct (_ && _) eqn:Ec; simpl; [|exact Hs].
    apply andb_true_iff in Ec. destruct Ec as [Ec _].
    apply andb_true_iff in Ec. destruct Ec as [Hdir Hnd].
    intros q y Hq.
    destruct (path_eqb (q ++ [y]) (pdir ++ [x])) eqn:E1.
    + apply path_eqb_eq, app_inj_tail in E1. destruct E1 as [-> ->].
      destruct (path_eqb pdir (pdir ++ [x])) eqn:E2.
      * apply path_eqb_eq, (f_equal (@List.length pystr)) in E2.
        rewrite length_app in E2. simpl in E2. lia.
      * destruct (s pdir) as [[|c]|]; try discriminate Hdir. reflexivity.
    + apply Hs in Hq. destruct (path_eqb q (pdir ++ [x])) eqn:E2; [|exact Hq].
      apply path_eqb_eq in E2. subst q. rewrite Hq in Hnd.
      discriminate Hnd.
  - intros s. destruct (_ && _); simpl; [|apply similar_outside_refl].
    intros q Hq. left.
    destruct (path_eqb q (pdir ++ [x])) eqn:E; [|reflexivity].
    apply path_eqb_eq in E. subst q. congruence.
  - intros s Hs. destruct (_ && _); simpl; [|exact Hs].
    rewrite (below_neq root pdir x [] Hp). exact Hs.
Qed.

Lemma sound_write_rst self pdir x rst :
  is_prefix root pdir = true ->
  sound root (write_rst self (pdir ++ [x]) rst).
Proof.
  intros Hp. destruct rst; simpl;
    [apply sound_file_write, Hp|apply sound_raise].
Qed.

Lemma sound_gen_datasheets self l_id l_name pdir :
  is_prefix root pdir = true ->
  sound root (gen_datasheets self l_id l_name pdir).
Proof.
  intros Hp. unfold gen_datasheets.
  destruct (select_society_name _ _); [apply sound_raise|].
  apply sound_write_rst, Hp.
Qed.

Ltac sound_level lower :=
  intros Hp; apply sound_bind;
  [ apply sound_for_each; intros [i n] acc;
    apply sound_bind;
    [ apply sound_make_dirs, is_prefix_app, Hp
    | intros _; apply sound_bind;
      [ apply lower, is_prefix_app, Hp | intros _; apply sound_ret ] ]
  | intros members; apply sound_write_rst, Hp ].

Lemma sound_gen_localities self v_id v_name pdir :
  is_prefix root pdir = true ->
  sound root (gen_localities self v_id v_name pdir).
Proof. sound_level sound_gen_datasheets. Qed.

Lemma sound_gen_volosts self u_id u_name pdir :
  is_prefix root pdir = true ->
  sound root (gen_volosts self u_id u_name pdir).
Proof. sound_level sound_gen_localities. Qed.

Lemma sound_gen_uezds self g_id g_name pdir :
  is_prefix root pdir = true ->
  sound root (gen_uezds self g_id g_name pdir).
Proof. sound_level sound_gen_volosts. Qed.

End Walk.

Lemma sound_gen_gubernias self :
  sound (root_dir self) (gen_gubernias self (root_dir self)).
Proof.
  pose proof (is_prefix_refl (root_dir self)) as Hp.
  apply sound_bind.
  - apply sound_for_each. intros [i n] acc. apply sound_bind.
    + apply sound_make_dirs, is_prefix_app, Hp.
    + intros _. apply sound_bind; [|intros _; apply sound_ret].
      apply sound_gen_uezds, is_prefix_app, Hp.
  - intros members. apply sound_write_rst, Hp.
Qed.

(** ** Clearing the output tree *)

Lemma well_formed_none_below s root :
  well_formed s -> s root = None -> forall r, s (root ++ r) = None.
Proof.
  intros Hwf Hroot r. induction r as [|x r IH] using rev_ind.
  - rewrite app_nil_r. exact Hroot.
  - destruct (s (root ++ r ++ [x])) eqn:E; [|reflexivity].
    rewrite app_assoc in E.
    assert (Hd : s (root ++ r) = Some Dir) by (apply (Hwf _ x); congruence).
    congruence.
Qed.

Lemma clear_cases self s :
  well_formed s ->
  (is_file (s (root_dir self)) = true
   /\ clear self s = (Fail (Uncaught "OSError"), s))
  \/ (is_file (s (root_dir self)) = false
      /\ exists s0,
          clear self s = (Ok tt, s0)
          /\ well_formed s0
          /\ (forall p, is_prefix (root_dir self) p = true -> s0 p = None)
          /\ (forall p, is_prefix (root_dir self) p = false -> s0 p = s p)).
Proof.
  intros Hwf. unfold clear, shutil_rmtree.
  destruct (s (root_dir self)) as [[|c]|] eqn:Eroot; simpl.
  - right. split; [reflexivity|]. eexists. split; [reflexivity|].
    split; [|split].
    + intros p x Hp. destruct (is_prefix (root_dir self) (p ++ [x])) eqn:E;
        [congruence|].
      destruct (is_prefix (root_dir self) p) eqn:E'.
      * rewrite (is_prefix_app _ _ [x] E') in E. discriminate E.
      * apply Hwf in Hp. exact Hp.
    + intros p Hp. rewrite Hp. reflexivity.
    + intros p Hp. rewrite Hp. reflexivity.
  - left. auto.
  - right. split; [reflexivity|]. exists s. split; [reflexivity|].
    split; [exact Hwf|]. split; [|reflexivity].
    intros p Hp. apply is_prefix_spec in Hp. destruct Hp as [r ->].
    apply well_formed_none_below; assumption.
Qed.

(** C9: on a well-formed disk, a second run of [generate] right after a
    first ends the way the first did (normally, or with the same failure)
    and leaves under the root of the output tree exactly what the first
    left: every directory and every document with the same text. *)
Theorem generate_twice_same_documents self s :
  well_formed s ->
  let first := generate self s in
  let second := generate self (snd first) in
  fst second = fst first
  /\ forall p, is_prefix (root_dir self) p = true ->
               snd second p = snd first p.
Proof.
  intros Hwf first second. subst second first.
  destruct (sound_gen_gubernias self) as (G1 & G2 & G3 & G4).
  unfold generate, bind.
  destruct (clear_cases self s Hwf) as [[_ E]|(_ & s0 & E & Hwf0 & Hb0 & Ho0)];
    rewrite E.
  - simpl. rewrite E. auto.
  - destruct (gen_gubernias self (root_dir self) s0) as [o1 s1] eqn:Erun.
    assert (Hwf1 : well_formed s1).
    { pose proof (G2 s0 Hwf0) as H. rewrite Erun in H. exact H. }
    assert (Hnf : is_file (s1 (root_dir self)) = false).
    { pose proof (G4 s0) as H. rewrite Erun in H. apply H.
      rewrite (Hb0 _ (is_prefix_refl _)). reflexivity. }
    assert (Hout : similar_outside (root_dir self) s0 s1).
    { pose proof (G3 s0) as H. rewrite Erun in H. exact H. }
    destruct (clear_cases self s1 Hwf1)
      as [[Hf _]|(_ & s1' & E' & _ & Hb1 & Ho1)]; [congruence|].
    assert (Hsim : similar (root_dir self) s0 s1').
    { intros p. destruct (is_prefix (root_dir self) p) eqn:Ep.
      - left. rewrite Hb0, Hb1 by assumption. reflexivity.
      - rewrite (Ho1 p Ep). apply Hout. exact Ep. }
    destruct (G1 s0 s1' Hsim) as [Hfst Hsnd]. rewrite Erun in Hfst, Hsnd.
    simpl in Hfst, Hsnd.
    simpl. rewrite E'.
    destruct (gen_gubernias self (root_dir self) s1') as [o2 s2].
    simpl in *. split; [congruence|].
    intros p Hp. symmetry. apply (similar_below _ _ _ _ Hsnd Hp).
Qed.

Lemma generate_twice_same_documents_witness :
  let first := generate Sample.self Sample.empty_fs in
  let second := generate Sample.self (snd first) in
  fst second = fst first
  /\ forall p, is_prefix (root_dir Sample.self) p = true ->
               snd second p = snd first p.
Proof.
  apply (generate_twice_same_documents Sample.self Sample.empty_fs).
  intros p x H. exfalso. apply H. reflexivity.
Defined.

(** ** Tree-index documents *)

Lemma step_value {S} (m1 m2 : M unit) (v : S) s r s' :
  bind m1 (fun _ => bind m2 (fun _ => ret v)) s = (Ok r, s') -> r = v.
Proof.
  unfold bind, ret. destruct (m1 s) as [[[]|f] s1]; [|discriminate].
  destruct (m2 s1) as [[[]|f] s2]; [|discriminate].
  intros E. inversion E. reflexivity.
Qed.

Lemma for_each_value {A} (xs : list A) (body : A -> pystr -> M pystr)
      (g : A -> pystr) :
  (forall x acc s r s', body x acc s = (Ok r, s') -> r = acc ++ g x) ->
  forall acc s r s',
    for_each xs body acc s = (Ok r, s') -> r = acc ++ concat (map g xs).
Proof.
  intros Hbody. induction xs as [|x xs IH]; intros acc s r s' H; simpl in *.
  - inversion H. rewrite app_nil_r. reflexivity.
  - unfold bind in H. destruct (body x acc s) as [[a|f] s1] eqn:E;
      [|discriminate].
    apply Hbody in E. subst a. apply IH in H. rewrite H, <- app_assoc.
    reflexivity.
Qed.

Lemma level_writes (loop : M pystr) self fn title depth ms s :
  (forall r s1, loop s = (Ok r, s1) -> r = ms) ->
  let run := bind loop (fun l => write_rst self fn (tree_rst title l depth)) s
  in fst run = Ok tt ->
     snd run fn = Some (File (tree_doc title ms depth)).
Proof.
  intros Hloop run. subst run. unfold bind.
  remember (loop s) as res eqn:E. destruct res as [[r|f] s1];
    [|cbn [fst]; discriminate].
  pose proof (Hloop r s1 eq_refl) as Hr. subst r.
  cbv beta iota. rewrite tree_rst_doc.
  unfold write_rst, file_write, os_write.
  destruct (_ && _); cbn [fst snd]; [|discriminate].
  intros _. rewrite path_eqb_refl. reflexivity.
Qed.

Ltac level_index lvl :=
  apply level_writes; [|assumption];
  let r := fresh "r" in
  let s1 := fresh "s" in
  let Hr := fresh "Hr" in
  intros r s1 Hr;
  apply (for_each_value _ _ (member_line lvl)) in Hr; [exact Hr|];
  let acc := fresh "acc" in
  let Hs := fresh "Hs" in
  intros [? ?] acc ? ? ? Hs; apply step_value in Hs; exact Hs.

(** C8: when a level of the walk ends normally, the tree-index document it
    has written declares maxdepth 2 at the root and province levels (the
    lists of provinces and of districts) and maxdepth 1 at the district and
    canton levels (the lists of cantons and of localities). *)
Theorem tree_index_maxdepth self s :
  (forall root,
      fst (gen_gubernias self root s) = Ok tt ->
      snd (gen_gubernias self root s) (root_dir self ++ [index_filename])
      = Some (File (tree_doc root_title
                             (members (u "gubernia")
                                      (select_gubernias (cur self)))
                             2)))
  /\ (forall g_id g_name pdir,
         fst (gen_uezds self g_id g_name pdir s) = Ok tt ->
         snd (gen_uezds self g_id g_name pdir s) (pdir ++ [index_filename])
         = Some (File (tree_doc g_name
                                (members (u "uezd")
                                         (select_uezds (cur self) g_id))
                                2)))
  /\ (forall u_id u_name pdir,
         fst (gen_volosts self u_id u_name pdir s) = Ok tt ->
         snd (gen_volosts self u_id u_name pdir s) (pdir ++ [index_filename])
         = Some (File (tree_doc u_name
                                (members (u "volost")
                                         (select_volosts (cur self) u_id))
                                1)))
  /\ (forall v_id v_name pdir,
         fst (gen_localities self v_id v_name pdir s) = Ok tt ->
         snd (gen_localities self v_id v_name pdir s)
             (pdir ++ [index_filename])
         = Some (File (tree_doc v_name
                                (members (u "locality")
                                         (select_localities (cur self) v_id))
                                1))).
Proof.
  split; [|split; [|split]]; intros.
  - level_index (u "gubernia").
  - level_index (u "uezd").
  - level_index (u "volost").
  - level_index (u "locality").
Qed.

Lemma tree_index_maxdepth_witness :
  snd (gen_gubernias Sample.self (root_dir Sample.self) Sample.empty_fs)
      (root_dir Sample.self ++ [index_filename])
  = Some (File (tree_doc root_title
                         (members (u "gubernia")
                                  (select_gubernias (cur Sample.self)))
                         2)).
Proof.
  apply (proj1 (tree_index_maxdepth Sample.self Sample.empty_fs)).
  vm_compute. reflexivity.
Defined.

(* ================================================================== *)
(** * Further properties of the script *)
(* ================================================================== *)

(** ** The datasheet of a listed locality *)

Lemma order_by_in {A} le (key : A -> option pystr) l x :
  In x (order_by le key l) -> In x l.
Proof. apply Permutation_in, order_by_perm. Qed.

(** Every locality the listing query returns has a row in the society
    query: [fetchall()[0]] finds one. *)
Lemma listed_locality_has_society_row db vol i n :
  In (i, n) (select_localities db vol) -> select_society_name db i <> [].
Proof.
  unfold select_localities. intros H. apply in_map_iff in H.
  destruct H as (l & E & Hl). inversion E; subst. clear E.
  apply order_by_in, filter_In in Hl. destruct Hl as [Hl _].
  unfold select_society_name.
  rewrite (left_join_filter_left _ (fun r => Z.eqb (l_id r) (l_id l))).
  intros E. apply map_eq_nil, left_join_nil in E.
  assert (Hin : In l (filter (fun r => Z.eqb (l_id r) (l_id l))
                             (locality db))).
  { apply filter_In. split; [exact Hl|apply Z.eqb_refl]. }
  rewrite E in Hin. exact Hin.
Qed.

(** X1: for a locality (its name a text) that the listing query of a
    canton returns, the
    society query of [__gen_datasheets] returns at least one row (the LEFT
    JOIN keeps the locality's own row), so [fetchall()[0][0]] finds its
    element, and the [format] call of either template is given every field
    the template names: the call comes down to writing the datasheet
    document made from the first row fetched, and ends neither with an
    [IndexError] nor with a [KeyError]. *)
Theorem listed_locality_datasheet_is_written self vol i n pdir s :
  In (i, n) (select_localities (cur self) vol) ->
  exists fetched rest,
    select_society_name (cur self) i = fetched :: rest
    /\ gen_datasheets self i n pdir s
       = file_write self (pdir ++ [index_filename])
                    (datasheet_doc (socname_line fetched) n
                                   (select_catcount (cur self) i)) s
    /\ fst (gen_datasheets self i n pdir s) <> Fail (Uncaught "IndexError")
    /\ fst (gen_datasheets self i n pdir s) <> Fail (Uncaught "KeyError").
Proof.
  intros Hin. apply listed_locality_has_society_row in Hin.
  unfold gen_datasheets.
  destruct (select_society_name (cur self) i) as [|fetched rest];
    [congruence|].
  exists fetched, rest. split; [reflexivity|].
  rewrite datasheet_rst_doc. cbv zeta. unfold write_rst.
  split; [reflexivity|].
  unfold file_write. destruct (os_write _ _ s);
    cbn [fst]; split; discriminate.
Qed.

Lemma listed_locality_datasheet_is_written_witness :
  fst (gen_datasheets Sample.self 1 (u "Locality D") [u "srv"]
                      Sample.empty_fs)
  <> Fail (Uncaught "IndexError").
Proof.
  destruct (listed_locality_datasheet_is_written
              Sample.self 1 1 (u "Locality D") [u "srv"] Sample.empty_fs)
    as (fetched & rest & _ & _ & H & _).
  - vm_compute. left. reflexivity.
  - exact H.
Defined.

(** ** A data source without provinces *)

Lemma select_gubernias_none db :
  gubernia db = [] -> select_gubernias db = [].
Proof. unfold select_gubernias. intros ->. reflexivity. Qed.

(** X2: with no province in the data source, [generate] on a well-formed
    disk always fails with an uncaught [OSError]: [clear] has removed the
    output root, no [make_dirs] call recreates it, and the root index
    cannot be opened for writing.  Unless the root was a file (which makes
    [clear] itself fail), nothing is left under the root. *)
Theorem generate_without_provinces_fails self s :
  gubernia (cur self) = [] ->
  well_formed s ->
  fst (generate self s) = Fail (Uncaught "OSError")
  /\ (is_file (s (root_dir self)) = false ->
      forall p, is_prefix (root_dir self) p = true ->
                snd (generate self s) p = None).
Proof.
  intros Hno Hwf. unfold generate, bind.
  destruct (clear_cases self s Hwf) as [[Hf E]|(Hf & s0 & E & _ & Hb & _)];
    rewrite E.
  - split; [reflexivity|]. congruence.
  - unfold gen_gubernias, bind. rewrite (select_gubernias_none _ Hno).
    cbn [for_each ret]. rewrite tree_rst_doc.
    unfold write_rst, file_write, os_write. rewrite removelast_last.
    rewrite (Hb _ (is_prefix_refl _)). simpl.
    split; [reflexivity|]. intros _ p Hp. apply Hb, Hp.
Qed.

Lemma generate_without_provinces_fails_witness :
  fst (generate (init [u "srv"] no_provinces) Sample.empty_fs)
  = Fail (Uncaught "OSError").
Proof.
  apply (generate_without_provinces_fails
           (init [u "srv"] no_provinces) Sample.empty_fs).
  - reflexivity.
  - intros p x H. exfalso. apply H. reflexivity.
Defined.

(** ** What a run leaves alone *)

Lemma clear_outside self s p :
  is_prefix (root_dir self) p = false -> snd (clear self s) p = s p.
Proof.
  intros Hp. unfold clear, shutil_rmtree.
  destruct (exists_ (s (root_dir self))); [|reflexivity].
  destruct (is_dir (s (root_dir self))); simpl; [|reflexivity].
  rewrite Hp. reflexivity.
Qed.

Lemma clear_failure_keeps self s f :
  fst (clear self s) = Fail f -> snd (clear self s) = s.
Proof.
  unfold clear, shutil_rmtree.
  destruct (exists_ (s (root_dir self))); [|discriminate].
  destruct (is_dir (s (root_dir self))); simpl; [discriminate|reflexivity].
Qed.

(** X3: [generate] changes nothing outside the output root, except that an
    ancestor directory of the root that was missing may have been created:
    every other path holds after the run what it held before. *)
Theorem generate_stays_in_output_tree self s p :
  is_prefix (root_dir self) p = false ->
  snd (generate self s) p = s p
  \/ (strict_prefix p (root_dir self) = true
      /\ s p = None
      /\ snd (generate self s) p = Some Dir).
Proof.
  intros Hp. unfold generate, bind.
  pose proof (clear_outside self s p Hp) as Hc.
  destruct (clear self s) as [[[]|f] s0]; simpl in Hc.
  - destruct (sound_gen_gubernias self) as (_ & _ & G3 & _).
    destruct (G3 s0 p Hp) as [E|(Ha & Hn & Hd)].
    + left. congruence.
    + right. rewrite <- Hc. auto.
  - left. exact Hc.
Qed.

Lemma generate_stays_in_output_tree_witness :
  snd (generate Sample.self Sample.empty_fs) [u "etc"; u "passwd"]
  = Sample.empty_fs [u "etc"; u "passwd"]
  \/ (strict_prefix [u "etc"; u "passwd"] (root_dir Sample.self) = true
      /\ Sample.empty_fs [u "etc"; u "passwd"] = None
      /\ snd (generate Sample.self Sample.empty_fs) [u "etc"; u "passwd"]
         = Some Dir).
Proof.
  apply (generate_stays_in_output_tree Sample.self Sample.empty_fs).
  reflexivity.
Defined.

(** X4: [generate] keeps the disk a well-formed file tree, however the run
    ends: whatever exists afterwards lies in a directory. *)
Theorem generate_keeps_disk_well_formed self s :
  well_formed s -> well_formed (snd (generate self s)).
Proof.
  intros Hwf. unfold generate, bind.
  destruct (clear_cases self s Hwf) as [[_ E]|(_ & s0 & E & Hwf0 & _)];
    rewrite E; [exact Hwf|].
  destruct (sound_gen_gubernias self) as (_ & G2 & _).
  apply G2, Hwf0.
Qed.

Lemma generate_keeps_disk_well_formed_witness :
  well_formed (snd (generate Sample.self Sample.empty_fs)).
Proof.
  apply (generate_keeps_disk_well_formed Sample.self Sample.empty_fs).
  intros p x H. exfalso. apply H. reflexivity.
Defined.

(** X5: what [generate] leaves under the output root does not depend on
    what was there before: on two well-formed disks that agree outside the
    root, the run ends the same way and leaves the same nodes under the
    root. *)
Theorem generate_ignores_old_output self s t :
  well_formed s -> well_formed t ->
  (forall p, is_prefix (root_dir self) p = false -> s p = t p) ->
  is_file (s (root_dir self)) = is_file (t (root_dir self)) ->
  fst (generate self s) = fst (generate self t)
  /\ forall p, is_prefix (root_dir self) p = true ->
               is_file (s (root_dir self)) = false ->
               snd (generate self s) p = snd (generate self t) p.
Proof.
  intros Hs Ht Hout Hroot. unfold generate, bind.
  destruct (clear_cases self s Hs) as [[Hf E]|(Hf & s0 & E & _ & Hb & Ho)];
    destruct (clear_cases self t Ht)
      as [[Hf' E']|(Hf' & t0 & E' & _ & Hb' & Ho')];
    rewrite E, E'; try congruence.
  - split; [reflexivity|]. congruence.
  - assert (Hsim : similar (root_dir self) s0 t0).
    { intros p. left. destruct (is_prefix (root_dir self) p) eqn:Ep.
      - rewrite Hb, Hb' by assumption. reflexivity.
      - rewrite Ho, Ho' by assumption. apply Hout, Ep. }
    destruct (sound_gen_gubernias self) as (G1 & _).
    destruct (G1 s0 t0 Hsim) as [Hfst Hsnd].
    split; [exact Hfst|].
    intros p Hp _. apply (similar_below _ _ _ _ Hsnd Hp).
Qed.

Lemma well_formed_dirs_to root : well_formed (dirs_to root).
Proof.
  intros p x H. unfold dirs_to in *.
  destruct (is_prefix (p ++ [x]) root) eqn:E; [|congruence].
  apply is_prefix_spec in E. destruct E as [r E].
  rewrite (proj2 (is_prefix_spec p root)); [reflexivity|].
  exists (x :: r). rewrite E, <- app_assoc. reflexivity.
Qed.

Lemma well_formed_with_file s d x text :
  well_formed s -> s d = Some Dir -> s (d ++ [x]) = None ->
  well_formed (with_file s (d ++ [x]) text).
Proof.
  intros Hwf Hd Hn p y H. unfold with_file in *.
  destruct (path_eqb (p ++ [y]) (d ++ [x])) eqn:E.
  - apply path_eqb_eq, app_inj_tail in E. destruct E as [-> ->].
    destruct (path_eqb d (d ++ [x])) eqn:E'; [|exact Hd].
    apply path_eqb_eq, (f_equal (@List.length pystr)) in E'.
    rewrite length_app in E'. simpl in E'. lia.
  - apply Hwf in H. destruct (path_eqb p (d ++ [x])) eqn:E'; [|exact H].
    apply path_eqb_eq in E'. subst p. congruence.
Qed.

Lemma generate_ignores_old_output_witness :
  fst (generate Sample.self fresh_disk)
  = fst (generate Sample.self stale_disk).
Proof.
  refine (proj1 (generate_ignores_old_output
                   Sample.self fresh_disk stale_disk _ _ _ _)).
  - apply well_formed_dirs_to.
  - apply well_formed_with_file;
      [apply well_formed_dirs_to|reflexivity|reflexivity].
  - intros p Hp. unfold stale_disk, with_file.
    destruct (path_eqb p (root_dir Sample.self ++ [u "old.rst"])) eqn:E;
      [|reflexivity].
    apply path_eqb_eq in E. subst p. discriminate Hp.
  - reflexivity.
Defined.

(** ** The three file operations *)

(** X6: a [make_dirs] that succeeds overwrites nothing: whatever was on
    disk is still there, the path and all its ancestors are directories,
    and asking for the same path again exits with status 1 and changes
    nothing. *)
Theorem make_dirs_creates_once self p s :
  fst (make_dirs self p s) = Ok tt ->
  let t := snd (make_dirs self p s) in
  keeps s t
  /\ (forall q, is_prefix q p = true -> t q = Some Dir)
  /\ (forall q, is_prefix q p = false -> t q = s q)
  /\ fst (make_dirs self p t) = Fail (Exit 1)
  /\ forall q, snd (make_dirs self p t) q = t q.
Proof.
  unfold make_dirs, os_makedirs.
  destruct (exists_ (s p) || existsb (fun a => is_file (s a)) (ancestors p))
    eqn:Ec; [discriminate|].
  intros _. cbn [snd].
  apply orb_false_iff in Ec. destruct Ec as [Hp Hanc].
  split; [|split; [|split]].
  - intros q Hq. destruct (is_prefix q p) eqn:Eq; [|reflexivity].
    destruct (path_eqb q p) eqn:Eqp.
    + apply path_eqb_eq in Eqp. subst q.
      destruct (s p); [discriminate Hp|congruence].
    + assert (Hin : In q (ancestors p)).
      { apply ancestors_strict. unfold strict_prefix. rewrite Eq, Eqp.
        reflexivity. }
      destruct (s q) as [[|c]|] eqn:Esq; [reflexivity| |congruence].
      exfalso. apply not_true_iff_false in Hanc. apply Hanc.
      apply existsb_exists. exists q. rewrite Esq. auto.
  - intros q Hq. rewrite Hq. reflexivity.
  - intros q Hq. rewrite Hq. reflexivity.
  - rewrite is_prefix_refl. simpl. auto.
Qed.

Lemma make_dirs_creates_once_witness :
  fst (make_dirs Sample.self [u "srv"; u "gp"]
                 (snd (make_dirs Sample.self [u "srv"; u "gp"]
                                 Sample.empty_fs)))
  = Fail (Exit 1).
Proof.
  apply (make_dirs_creates_once Sample.self [u "srv"; u "gp"]
                                Sample.empty_fs).
  reflexivity.
Defined.

Lemma removelast_shorter (p : path) : p <> [] -> removelast p <> p.
Proof.
  intros Hne E. destruct (exists_last Hne) as (q & x & ->).
  rewrite removelast_last in E.
  apply (f_equal (@List.length pystr)) in E.
  rewrite length_app in E. simpl in E. lia.
Qed.

(** X8: a [file_write] that succeeds puts exactly the given text at the
    path and touches no other path; writing the same path again succeeds
    and replaces the text.  It fails with an uncaught [OSError], leaving
    the disk as it was, when the parent of the path is not a directory. *)
Theorem file_write_then_overwrite self fn text text' s :
  (fst (file_write self fn text s) = Ok tt ->
   let t := snd (file_write self fn text s) in
   t fn = Some (File text)
   /\ (forall q, q <> fn -> t q = s q)
   /\ fst (file_write self fn text' t) = Ok tt
   /\ snd (file_write self fn text' t) fn = Some (File text'))
  /\ (is_dir (s (removelast fn)) = false ->
      file_write self fn text s = (Fail (Uncaught "OSError"), s)).
Proof.
  unfold file_write, os_write. split.
  - destruct (is_dir (s (removelast fn)) && negb (is_dir (s fn))
              && negb (path_eqb fn [])) eqn:Ec; [|discriminate].
    intros _. cbn [snd fst].
    apply andb_true_iff in Ec. destruct Ec as [Ec Hne].
    apply andb_true_iff in Ec. destruct Ec as [Hd Hnd].
    assert (Hrl : path_eqb (removelast fn) fn = false).
    { apply not_true_iff_false. rewrite path_eqb_eq.
      apply removelast_shorter. intros ->. discriminate Hne. }
    rewrite path_eqb_refl, Hrl, Hd, Hne. cbn.
    rewrite path_eqb_refl.
    split; [reflexivity|]. split; [|auto].
    intros q Hq. destruct (path_eqb q fn) eqn:E; [|reflexivity].
    apply path_eqb_eq in E. contradiction.
  - intros ->. reflexivity.
Qed.

Lemma file_write_then_overwrite_witness :
  snd (file_write Sample.self [u "srv"; u "a.rst"] (u "new")
         (snd (file_write Sample.self [u "srv"; u "a.rst"] (u "old")
                          (dirs_to [u "srv"]))))
      [u "srv"; u "a.rst"]
  = Some (File (u "new")).
Proof.
  apply (proj1 (file_write_then_overwrite
                  Sample.self [u "srv"; u "a.rst"] (u "old") (u "new")
                  (dirs_to [u "srv"]))).
  reflexivity.
Defined.

(** X9: on a well-formed disk [clear] fails (with an uncaught [OSError],
    the disk unchanged) exactly when the output root is a file; otherwise
    nothing is left at or under the root, everything else is as before,
    and a second [clear] succeeds and changes nothing. *)
Theorem clear_empties_output_root self s :
  well_formed s ->
  (is_file (s (root_dir self)) = true ->
   clear self s = (Fail (Uncaught "OSError"), s))
  /\ (is_file (s (root_dir self)) = false ->
      let t := snd (clear self s) in
      fst (clear self s) = Ok tt
      /\ (forall p, is_prefix (root_dir self) p = true -> t p = None)
      /\ (forall p, is_prefix (root_dir self) p = false -> t p = s p)
      /\ fst (clear self t) = Ok tt
      /\ forall p, snd (clear self t) p = t p).
Proof.
  intros Hwf.
  destruct (clear_cases self s Hwf)
    as [[Hf E]|(Hf & s0 & E & Hwf0 & Hb & Ho)]; rewrite E;
    (split; [|rewrite Hf; try discriminate]); try congruence.
  intros _. cbn [fst snd].
  split; [reflexivity|]. split; [exact Hb|]. split; [exact Ho|].
  unfold clear. rewrite (Hb _ (is_prefix_refl _)). cbn. auto.
Qed.

Lemma clear_empties_output_root_witness :
  fst (clear Sample.self stale_disk) = Ok tt.
Proof.
  refine (proj1 (proj2 (clear_empties_output_root Sample.self stale_disk _)
                       _)).
  - apply well_formed_with_file;
      [apply well_formed_dirs_to|reflexivity|reflexivity].
  - reflexivity.
Defined.

(** ** The index field *)

Lemma token_no_linebreak t : token t -> no_linebreak t = true.
Proof. intros [_ H]. apply no_space_no_linebreak, H. Qed.

Lemma join_tokens_no_linebreak toks :
  Forall token toks -> no_linebreak (join (u " ") toks) = true.
Proof.
  induction 1 as [|t rest Ht Hrest IH]; [reflexivity|].
  destruct rest as [|t' rest]; [apply token_no_linebreak, Ht|].
  rewrite join_cons, !no_linebreak_app, IH, (token_no_linebreak t Ht).
  reflexivity.
Qed.

Lemma tl_tokens l_name : Forall token (tl (split l_name)).
Proof.
  pose proof (split_tokens l_name) as H.
  destruct (split l_name); simpl; [constructor|].
  inversion H; assumption.
Qed.

(** X10: the index field is empty exactly when the locality's name has at
    most one whitespace-delimited token (an empty, blank or one-word name);
    and whatever the name holds, the field holds no line boundary, so the
    index directive stays on one line. *)
Theorem index_field_empty_or_one_line l_name :
  (index_of l_name = [] <-> (List.length (split l_name) <= 1)%nat)
  /\ no_linebreak (index_of l_name) = true.
Proof.
  split.
  - split; intros H.
    + apply (f_equal split) in H. rewrite index_of_tokens in H.
      change (split []) with (@nil pystr) in H.
      destruct (split l_name) as [|t rest]; simpl in *; [lia|].
      subst rest. simpl. lia.
    + unfold index_of.
      destruct (split l_name) as [|t [|t' rest]]; simpl in *;
        [reflexivity|reflexivity|lia].
  - apply join_tokens_no_linebreak, tl_tokens.
Qed.

(** ** The lines of a cell *)

Lemma split_on_from_line cur a b :
  no_linebreak a = true ->
  split_on_from LF cur (a ++ LF :: b)
  = (rev cur ++ a) :: split_on_from LF [] b.
Proof.
  revert cur. induction a as [|c a IH]; intros cur H.
  - simpl. rewrite app_nil_r. reflexivity.
  - simpl in H. apply andb_true_iff in H. destruct H as [Hc Ha].
    simpl. destruct (N.eqb_spec c LF) as [->|_]; [discriminate Hc|].
    rewrite IH by assumption. simpl. rewrite <- app_assoc. reflexivity.
Qed.

Lemma spaces_no_linebreak n : no_linebreak (spaces n) = true.
Proof. induction n as [|n IH]; [reflexivity|exact IH]. Qed.

Lemma continuation_lines rest :
  Forall (fun x => no_linebreak x = true) rest ->
  Forall (fun l => l = [] \/ starts_with (spaces 7) l = true)
         (split_on_from LF [] (concat (map continuation rest))).
Proof.
  induction 1 as [|seg rest Hseg Hrest IH].
  - repeat constructor.
  - cbn [map concat]. unfold continuation at 1.
    change (([LF] ++ (if blank seg then spaces 7 else spaces 10)
                  ++ seg ++ [LF]) ++ concat (map continuation rest))
      with ([] ++ LF :: (((if blank seg then spaces 7 else spaces 10)
                            ++ seg ++ [LF])
                           ++ concat (map continuation rest))).
    rewrite split_on_from_line by reflexivity.
    constructor; [left; reflexivity|].
    replace (((if blank seg then spaces 7 else spaces 10) ++ seg ++ [LF])
               ++ concat (map continuation rest))
      with (((if blank seg then spaces 7 else spaces 10) ++ seg)
              ++ LF :: concat (map continuation rest))
      by (rewrite <- !app_assoc; reflexivity).
    rewrite split_on_from_line.
    + constructor; [|exact IH]. right. destruct (blank seg); reflexivity.
    + rewrite no_linebreak_app, Hseg.
      destruct (blank seg); rewrite spaces_no_linebreak; reflexivity.
Qed.

(** X11: in a cell whose only line boundaries are newlines, every line
    after the first is empty or begins with at least seven spaces: no line
    of the cell's text can begin at the column of a row marker or of a cell
    marker. *)
Theorem cell_lines_stay_inside_the_cell text :
  only_lf_breaks text = true ->
  Forall (fun l => l = [] \/ starts_with (spaces 7) l = true)
         (tl (split_on LF (cell (VStr text)))).
Proof.
  intros H. rewrite cell_str_layout by assumption.
  unfold cell_layout, split_on.
  pose proof (split_on_from_no_linebreak [] text eq_refl H) as Hall.
  destruct (split_on_from_cons LF [] text) as (s0 & rest & E).
  rewrite E in *. cbn [hd tl].
  inversion Hall as [|? ? Hs0 Hrest]; subst.
  replace (cell_marker ++ s0 ++ [LF] ++ concat (map continuation rest))
    with ((cell_marker ++ s0) ++ LF :: concat (map continuation rest))
    by (rewrite <- app_assoc; reflexivity).
  rewrite split_on_from_line.
  - cbn [tl]. apply continuation_lines, Hrest.
  - rewrite no_linebreak_app, Hs0. reflexivity.
Qed.

Lemma cell_lines_stay_inside_the_cell_witness :
  Forall (fun l => l = [] \/ starts_with (spaces 7) l = true)
         (tl (split_on LF (cell (VStr (u "a" ++ [LF] ++ u "* - b"))))).
Proof.
  apply (cell_lines_stay_inside_the_cell (u "a" ++ [LF] ++ u "* - b")).
  reflexivity.
Defined.

(** ** The lines of the note block and of the member list *)

Lemma footnote_indented k c rest :
  no_linebreak c = true ->
  indent (footnote (k, c) ++ rest) (u "   ")
  = (u "   (" ++ str_int k ++ u "*) " ++ c ++ [LF; LF])
    ++ indent rest (u "   ").
Proof.
  intros Hc. unfold footnote. cbn [fst snd].
  replace ((u "(" ++ str_int k ++ u "*) " ++ c ++ [LF; LF]) ++ rest)
    with ((u "(" ++ str_int k ++ u "*) " ++ c)
            ++ LF :: ([] ++ LF :: rest))
    by (rewrite <- !app_assoc; reflexivity).
  rewrite indent_line.
  - rewrite indent_line by reflexivity.
    change (blank (u "(" ++ str_int k ++ u "*) " ++ c)) with false.
    cbv iota. rewrite <- !app_assoc. reflexivity.
  - change (u "(" ++ str_int k ++ u "*) " ++ c)
      with ((40 :: str_int k) ++ (u "*) " ++ c)).
    rewrite no_linebreak_app. change (u "*) " ++ c) with ([42; 41; 32] ++ c).
    rewrite (no_linebreak_app [42; 41; 32]), Hc.
    change (no_linebreak (40 :: str_int k))
      with (no_linebreak (str_int k)).
    rewrite str_int_no_linebreak. reflexivity.
Qed.

(** X12: when no comment holds a line boundary, the note block is the
    directive, an empty line, and then every footnote on a line of its own
    behind three spaces, each followed by an empty line. *)
Theorem note_block_lines cs :
  Forall (fun c => no_linebreak c = true) cs ->
  format_note (comments_loop cs)
  = u ".. note:: " ++ [LF; LF]
    ++ concat (map (fun e => u "   (" ++ str_int (fst e) ++ u "*) "
                             ++ snd e ++ [LF; LF])
                   (number_from 1 cs)).
Proof.
  intros H. unfold format_note, format3. rewrite comments_loop_eq.
  do 2 f_equal. generalize 1%Z as k.
  induction H as [|c cs Hc Hcs IH]; intros k; [reflexivity|].
  cbn [number_from map concat]. rewrite footnote_indented by assumption.
  rewrite IH. reflexivity.
Qed.

Lemma note_block_lines_witness :
  format_note (comments_loop [u "estimated"; u "see ledger"])
  = u ".. note:: " ++ [LF; LF]
    ++ concat (map (fun e => u "   (" ++ str_int (fst e) ++ u "*) "
                             ++ snd e ++ [LF; LF])
                   (number_from 1 [u "estimated"; u "see ledger"])).
Proof.
  apply (note_block_lines [u "estimated"; u "see ledger"]).
  repeat constructor.
Defined.

Lemma member_line_text level row :
  no_space level = true -> level <> [] ->
  member_line level row
  = u "   " ++ level ++ u "/" ++ str_int (fst row) ++ u "/index" ++ [LF].
Proof.
  intros Hns Hne. unfold member_line.
  replace (level ++ u "/" ++ str_int (fst row) ++ u "/index" ++ [LF])
    with ((level ++ u "/" ++ str_int (fst row) ++ u "/index") ++ [LF])
    by (rewrite <- !app_assoc; reflexivity).
  rewrite format3_line.
  - destruct level as [|c level]; [congruence|].
    simpl in Hns. apply andb_true_iff in Hns. destruct Hns as [Hc _].
    apply negb_true_iff in Hc. cbn [blank forallb app]. rewrite Hc.
    cbn [andb]. rewrite <- !app_assoc. reflexivity.
  - rewrite !no_linebreak_app, (no_space_no_linebreak level Hns),
      str_int_no_linebreak. reflexivity.
Qed.

(** ** Every row gets its page *)

Lemma gen_localities_walk self v_id v_name pdir :
  gen_localities self v_id v_name pdir
  = level_walk self (u "locality") (select_localities (cur self) v_id)
               (gen_datasheets self) v_name 1 pdir.
Proof. reflexivity. Qed.

Lemma gen_volosts_walk self u_id u_name pdir :
  gen_volosts self u_id u_name pdir
  = level_walk self (u "volost") (select_volosts (cur self) u_id)
               (gen_localities self) u_name 1 pdir.
Proof. reflexivity. Qed.

Lemma gen_uezds_walk self g_id g_name pdir :
  gen_uezds self g_id g_name pdir
  = level_walk self (u "uezd") (select_uezds (cur self) g_id)
               (gen_volosts self) g_name 2 pdir.
Proof. reflexivity. Qed.

Lemma gen_gubernias_walk self :
  gen_gubernias self (root_dir self)
  = level_walk self (u "gubernia") (select_gubernias (cur self))
               (gen_uezds self) root_title 2 (root_dir self).
Proof. reflexivity. Qed.

Lemma path_eqb_neq p q : p <> q -> path_eqb p q = false.
Proof.
  intros H. apply not_true_iff_false. rewrite path_eqb_eq. exact H.
Qed.

Lemma keeps_trans s t w : keeps s t -> keeps t w -> keeps s w.
Proof.
  intros Hst Htw q Hq. rewrite Htw; [apply Hst, Hq|].
  rewrite (Hst q Hq). exact Hq.
Qed.

Lemma make_dirs_effect self p s :
  fst (make_dirs self p s) = Ok tt ->
  s p = None
  /\ keeps s (snd (make_dirs self p s))
  /\ snd (make_dirs self p s) p = Some Dir.
Proof.
  unfold make_dirs, os_makedirs.
  destruct (exists_ (s p) || existsb (fun a => is_file (s a)) (ancestors p))
    eqn:Ec; [discriminate|].
  intros _. cbn [snd].
  apply orb_false_iff in Ec. destruct Ec as [Hp Hanc].
  assert (Hnone : s p = None) by (destruct (s p); [discriminate Hp|auto]).
  split; [exact Hnone|]. split; [|rewrite is_prefix_refl; reflexivity].
  intros q Hq. destruct (is_prefix q p) eqn:Eq; [|reflexivity].
  destruct (path_eqb q p) eqn:Eqp.
  - apply path_eqb_eq in Eqp. subst q. congruence.
  - assert (Hin : In q (ancestors p)).
    { apply ancestors_strict. unfold strict_prefix. rewrite Eq, Eqp.
      reflexivity. }
    destruct (s q) as [[|c]|] eqn:Esq; [reflexivity| |congruence].
    exfalso. apply not_true_iff_false in Hanc. apply Hanc.
    apply existsb_exists. exists q. rewrite Esq. auto.
Qed.

Lemma file_write_effect self fn text s :
  fst (file_write self fn text s) = Ok tt ->
  forall q, snd (file_write self fn text s) q
            = if path_eqb q fn then Some (File text) else s q.
Proof.
  unfold file_write, os_write.
  destruct (_ && _); [|discriminate]. reflexivity.
Qed.

Lemma strict_prefix_snoc c x : strict_prefix c (c ++ [x]) = true.
Proof. apply strict_prefix_spec. exists x, []. reflexivity. Qed.

Lemma not_below_neq c x q :
  strict_prefix c q = false -> q <> c ++ [x].
Proof.
  intros H E. subst q. rewrite strict_prefix_snoc in H. discriminate H.
Qed.

Lemma gen_datasheets_effect self i n c s :
  fst (gen_datasheets self i n c s) = Ok tt ->
  keeps_outside c s (snd (gen_datasheets self i n c s))
  /\ realizes (datasheet_page (cur self) c (i, n))
              (snd (gen_datasheets self i n c s)).
Proof.
  unfold gen_datasheets.
  destruct (select_society_name (cur self) i) as [|fetched rest] eqn:Es;
    [discriminate|].
  rewrite datasheet_rst_doc. unfold write_rst. intros Hok.
  pose proof (file_write_effect _ _ _ _ Hok) as Hw. split.
  - intros q Hq _. rewrite Hw, path_eqb_neq; [reflexivity|].
    apply not_below_neq, Hq.
  - intros p nd (fetched' & rest' & Es' & -> & ->). cbn [fst snd] in *.
    rewrite Es in Es'. inversion Es'; subst.
    rewrite Hw, path_eqb_refl. reflexivity.
Qed.

Lemma bind_run {A B} (m : M A) (k : A -> M B) s :
  bind m k s = match m s with
               | (Ok a, s') => k a s'
               | (Fail f, s') => (Fail f, s')
               end.
Proof. reflexivity. Qed.

Section Level.
Variables (self : GPeasantSphinx) (level : pystr).
Variable sub : Z -> pystr -> path -> M unit.
Variable below : path -> Z * pystr -> path -> node -> Prop.
Hypothesis sub_well_formed :
  forall i n c s, well_formed s -> well_formed (snd (sub i n c s)).
Hypothesis sub_keeps :
  forall i n c s,
    well_formed s -> fst (sub i n c s) = Ok tt ->
    keeps_outside c s (snd (sub i n c s)).
Hypothesis sub_realizes :
  forall i n c s,
    well_formed s -> fst (sub i n c s) = Ok tt ->
    realizes (below c (i, n)) (snd (sub i n c s)).
Hypothesis below_is_below :
  forall c x p n, below c x p n -> strict_prefix c p = true.

Variable pdir : path.

Local Abbreviation child x := (pdir ++ [level; str_int (fst x)]).

Local Abbreviation body :=
  (fun '(i, n) acc =>
     let acc :=
       acc ++ format3 (level ++ u "/" ++ str_int i ++ u "/index" ++ [LF]) in
     let child_dir := pdir ++ [level; str_int i] in
     bind (make_dirs self child_dir)
          (fun _ => bind (sub i n child_dir) (fun _ => ret acc))).

Lemma level_step x acc s r t :
  well_formed s ->
  body x acc s = (Ok r, t) ->
  well_formed t /\ keeps s t /\ t (child x) = Some Dir
  /\ realizes (below (child x) x) t.
Proof.
  destruct x as [i n]. intros Hwf. unfold bind. cbn [fst].
  destruct (make_dirs self (pdir ++ [level; str_int i]) s)
    as [[[]|f] s1] eqn:E1; [|discriminate].
  destruct (sub i n (pdir ++ [level; str_int i]) s1)
    as [[[]|f] s2] eqn:E2; [|discriminate].
  unfold ret. intros E. inversion E; subst. clear E.
  assert (Hok1 : fst (make_dirs self (pdir ++ [level; str_int i]) s) = Ok tt)
    by (rewrite E1; reflexivity).
  destruct (make_dirs_effect _ _ _ Hok1) as (Hnone & Hk1 & Hd1).
  rewrite E1 in Hk1, Hd1. cbn [snd] in Hk1, Hd1.
  assert (Hwf1 : well_formed s1).
  { destruct (sound_make_dirs [] self (pdir ++ [level; str_int i]) eq_refl)
      as (_ & W & _). specialize (W s Hwf). rewrite E1 in W. exact W. }
  assert (Hok2 : fst (sub i n (pdir ++ [level; str_int i]) s1) = Ok tt)
    by (rewrite E2; reflexivity).
  pose proof (sub_well_formed i n (pdir ++ [level; str_int i]) s1 Hwf1)
    as Hwf2.
  pose proof (sub_keeps i n _ s1 Hwf1 Hok2) as Hk2.
  pose proof (sub_realizes i n _ s1 Hwf1 Hok2) as Hr2.
  rewrite E2 in Hwf2, Hk2, Hr2. cbn [snd] in Hwf2, Hk2, Hr2.
  split; [exact Hwf2|]. split; [|split; [|exact Hr2]].
  - intros q Hq. rewrite <- (Hk1 q Hq). apply Hk2.
    + destruct (strict_prefix (pdir ++ [level; str_int i]) q) eqn:Eq;
        [|reflexivity].
      apply strict_prefix_spec in Eq. destruct Eq as (y & r' & ->).
      exfalso. apply Hq. apply well_formed_none_below; assumption.
    + rewrite (Hk1 q Hq). exact Hq.
  - cbn [fst]. rewrite <- Hd1. apply Hk2; [|congruence].
    apply not_true_iff_false. rewrite strict_prefix_spec.
    intros (y & r' & E). apply (f_equal (@List.length pystr)) in E.
    rewrite !length_app in E. simpl in E. lia.
Qed.

Lemma level_loop xs acc s r t :
  well_formed s ->
  for_each xs body acc s = (Ok r, t) ->
  well_formed t /\ keeps s t
  /\ forall x, In x xs ->
               t (child x) = Some Dir /\ realizes (below (child x) x) t.
Proof.
  revert acc s. induction xs as [|x xs IH]; intros acc s Hwf H.
  - inversion H; subst. split; [exact Hwf|]. split; [|contradiction].
    intros q _. reflexivity.
  - cbn [for_each] in H. unfold bind at 1 in H.
    destruct (body x acc s) as [[a|f] s1] eqn:E; [|discriminate].
    destruct (level_step x acc s a s1 Hwf E) as (Hwf1 & Hk1 & Hd1 & Hr1).
    destruct (IH a s1 Hwf1 H) as (Hwft & Hkt & Hrest).
    split; [exact Hwft|]. split; [apply (keeps_trans s s1 t); assumption|].
    intros y [<-|Hy]; [|apply Hrest, Hy].
    split.
    + rewrite (Hkt _); [exact Hd1|congruence].
    + intros p nd Hp. pose proof (Hr1 p nd Hp) as Hs1.
      rewrite (Hkt p); [exact Hs1|congruence].
Qed.

Lemma level_walk_effect rows title maxdepth s :
  well_formed s ->
  fst (level_walk self level rows sub title maxdepth pdir s) = Ok tt ->
  let t := snd (level_walk self level rows sub title maxdepth pdir s) in
  well_formed t
  /\ keeps_outside pdir s t
  /\ realizes (level_pages level rows title maxdepth below pdir) t.
Proof.
  intros Hwf. unfold level_walk. rewrite bind_run.
  destruct (for_each rows body [] s) as [[l|f] t0] eqn:E;
    [|cbn; intros H; discriminate H].
  destruct (level_loop rows [] s l t0 Hwf E) as (Hwf0 & Hk0 & Hrows).
  assert (Hl : l = members level rows).
  { apply (for_each_value _ _ (member_line level)) in E; [exact E|].
    intros [i n] acc s2 r' s3 Hs. apply step_value in Hs. exact Hs. }
  subst l. rewrite tree_rst_doc. unfold write_rst. intros Hok.
  pose proof (file_write_effect _ _ _ _ Hok) as Hw. cbv zeta.
  split; [|split].
  - destruct (sound_file_write [] self pdir index_filename
                (tree_doc title (members level rows) maxdepth) eq_refl)
      as (_ & W & _). apply W, Hwf0.
  - intros q Hq Hs. rewrite Hw, path_eqb_neq by (apply not_below_neq, Hq).
    apply Hk0, Hs.
  - intros p nd [[-> ->]|(x & Hx & [[-> ->]|Hb])].
    + rewrite Hw, path_eqb_refl. reflexivity.
    + rewrite Hw, path_eqb_neq; [apply Hrows, Hx|].
      intros E'. apply app_inv_head in E'. discriminate E'.
    + rewrite Hw, path_eqb_neq; [apply (Hrows x Hx), Hb|].
      apply below_is_below, strict_prefix_spec in Hb.
      destruct Hb as (y & r' & ->). rewrite <- app_assoc. intros E'.
      apply app_inv_head in E'. discriminate E'.
Qed.

Lemma level_pages_below rows title maxdepth p n :
  level_pages level rows title maxdepth below pdir p n ->
  strict_prefix pdir p = true.
Proof.
  intros [[-> _]|(x & _ & [[-> _]|Hb])].
  - apply strict_prefix_snoc.
  - apply strict_prefix_spec. eexists _, _. reflexivity.
  - apply below_is_below, strict_prefix_spec in Hb.
    destruct Hb as (y & r' & ->). apply strict_prefix_spec.
    rewrite <- app_assoc. eexists _, _. reflexivity.
Qed.

End Level.

Lemma datasheet_page_below db c x p n :
  datasheet_page db c x p n -> strict_prefix c p = true.
Proof. intros (_ & _ & _ & -> & _). apply strict_prefix_snoc. Qed.

Lemma gen_datasheets_well_formed self i n c s :
  well_formed s -> well_formed (snd (gen_datasheets self i n c s)).
Proof.
  destruct (sound_gen_datasheets [] self i n c eq_refl) as (_ & W & _).
  apply W.
Qed.

Lemma gen_localities_effect self v n c s :
  well_formed s ->
  fst (gen_localities self v n c s) = Ok tt ->
  well_formed (snd (gen_localities self v n c s))
  /\ keeps_outside c s (snd (gen_localities self v n c s))
  /\ realizes (canton_pages (cur self) c (v, n))
              (snd (gen_localities self v n c s)).
Proof.
  rewrite gen_localities_walk.
  apply (level_walk_effect self (u "locality") (gen_datasheets self)
                           (datasheet_page (cur self))).
  - apply gen_datasheets_well_formed.
  - intros i n' c' s' _ H. apply gen_datasheets_effect, H.
  - intros i n' c' s' _ H. apply gen_datasheets_effect, H.
  - apply datasheet_page_below.
Qed.

Lemma canton_pages_below db c x p n :
  canton_pages db c x p n -> strict_prefix c p = true.
Proof. apply level_pages_below, datasheet_page_below. Qed.

Lemma gen_volosts_effect self uz n c s :
  well_formed s ->
  fst (gen_volosts self uz n c s) = Ok tt ->
  well_formed (snd (gen_volosts self uz n c s))
  /\ keeps_outside c s (snd (gen_volosts self uz n c s))
  /\ realizes (district_pages (cur self) c (uz, n))
              (snd (gen_volosts self uz n c s)).
Proof.
  rewrite gen_volosts_walk.
  apply (level_walk_effect self (u "volost") (gen_localities self)
                           (canton_pages (cur self))).
  - intros i n' c' s' Hs.
    destruct (sound_gen_localities [] self i n' c' eq_refl) as (_ & W & _).
    apply W, Hs.
  - intros i n' c' s' Hs H. apply gen_localities_effect; assumption.
  - intros i n' c' s' Hs H. apply gen_localities_effect; assumption.
  - apply canton_pages_below.
Qed.

Lemma district_pages_below db c x p n :
  district_pages db c x p n -> strict_prefix c p = true.
Proof. apply level_pages_below, canton_pages_below. Qed.

Lemma gen_uezds_effect self g n c s :
  well_formed s ->
  fst (gen_uezds self g n c s) = Ok tt ->
  well_formed (snd (gen_uezds self g n c s))
  /\ keeps_outside c s (snd (gen_uezds self g n c s))
  /\ realizes (province_pages (cur self) c (g, n))
              (snd (gen_uezds self g n c s)).
Proof.
  rewrite gen_uezds_walk.
  apply (level_walk_effect self (u "uezd") (gen_volosts self)
                           (district_pages (cur self))).
  - intros i n' c' s' Hs.
    destruct (sound_gen_volosts [] self i n' c' eq_refl) as (_ & W & _).
    apply W, Hs.
  - intros i n' c' s' Hs H. apply gen_volosts_effect; assumption.
  - intros i n' c' s' Hs H. apply gen_volosts_effect; assumption.
  - apply district_pages_below.
Qed.

Lemma province_pages_below db c x p n :
  province_pages db c x p n -> strict_prefix c p = true.
Proof. apply level_pages_below, district_pages_below. Qed.

(** X13: when [generate] ends normally on a well-formed disk, every page
    of the site is on disk: the root index; for every province,
    district and canton a directory named by its id holding the
    tree index of its children; and for every locality a directory
    holding its datasheet, as rendered from the two queries.  In
    particular the datasheet of a locality lies at
    gubernia/g/uezd/u/volost/v/locality/l/index.rst under the root. *)
Theorem generate_writes_every_page self s :
  well_formed s ->
  fst (generate self s) = Ok tt ->
  realizes (site_pages (cur self) (root_dir self)) (snd (generate self s))
  /\ forall g uz v l,
      In g (select_gubernias (cur self)) ->
      In uz (select_uezds (cur self) (fst g)) ->
      In v (select_volosts (cur self) (fst uz)) ->
      In l (select_localities (cur self) (fst v)) ->
      exists fetched rest,
        select_society_name (cur self) (fst l) = fetched :: rest
        /\ snd (generate self s)
               (root_dir self
                  ++ [u "gubernia"; str_int (fst g)]
                  ++ [u "uezd"; str_int (fst uz)]
                  ++ [u "volost"; str_int (fst v)]
                  ++ [u "locality"; str_int (fst l)]
                  ++ [index_filename])
           = Some (File (datasheet_doc (socname_line fetched) (snd l)
                                       (select_catcount (cur self) (fst l)))).
Proof.
  intros Hwf. unfold generate. rewrite bind_run.
  destruct (clear_cases self s Hwf) as [[_ E]|(_ & s0 & E & Hwf0 & _)];
    rewrite E; [discriminate|].
  rewrite gen_gubernias_walk. intros Hok.
  destruct (level_walk_effect self (u "gubernia") (gen_uezds self)
              (province_pages (cur self))
              (fun i n' c' s' Hs =>
                 proj1 (proj2 (sound_gen_uezds [] self i n' c' eq_refl))
                       s' Hs)
              (fun i n' c' s' Hs H =>
                 proj1 (proj2 (gen_uezds_effect self i n' c' s' Hs H)))
              (fun i n' c' s' Hs H =>
                 proj2 (proj2 (gen_uezds_effect self i n' c' s' Hs H)))
              (province_pages_below (cur self))
              (root_dir self) (select_gubernias (cur self)) root_title 2
              s0 Hwf0 Hok) as (_ & _ & Hall).
  fold (site_pages (cur self) (root_dir self)) in Hall.
  split; [exact Hall|].
  intros g uz v l Hg Huz Hv Hl.
  destruct (select_society_name (cur self) (fst l)) as [|fetched rest] eqn:Es.
  { exfalso. destruct l as [i n].
    apply (listed_locality_has_society_row _ _ _ _ Hl Es). }
  exists fetched, rest. split; [reflexivity|].
  apply Hall. right. exists g. split; [exact Hg|]. right.
  right. exists uz. split; [exact Huz|]. right.
  right. exists v. split; [exact Hv|]. right.
  right. exists l. split; [exact Hl|]. right.
  exists fetched, rest. split; [exact Es|].
  split; [|reflexivity]. rewrite <- !app_assoc. reflexivity.
Qed.

Lemma generate_writes_every_page_witness :
  realizes (site_pages (cur Sample.self) (root_dir Sample.self))
           (snd (generate Sample.self Sample.empty_fs)).
Proof.
  apply (generate_writes_every_page Sample.self Sample.empty_fs).
  - intros p x H. exfalso. apply H. reflexivity.
  - vm_compute. reflexivity.
Defined.

(** ** Member lines, childless levels, repeated ids *)

Ltac level_lines lvl :=
  apply level_writes; [|assumption];
  let r := fresh "r" in
  let s1 := fresh "s" in
  let Hr := fresh "Hr" in
  intros r s1 Hr;
  apply (for_each_value _ _ (member_line lvl)) in Hr;
  [ rewrite Hr; cbn [app]; f_equal; apply map_ext; intros ?;
    apply member_line_text; (reflexivity || discriminate)
  | let acc := fresh "acc" in
    let Hs := fresh "Hs" in
    intros [? ?] acc ? ? ? Hs; apply step_value in Hs; exact Hs ].

(** X14: when a level of the walk ends normally, the member list of the
    tree index it has written holds one line per child that the level's
    query lists, in the order of the listing: three spaces, the level's
    directory name ([gubernia], [uezd], [volost] or [locality]), the
    child's id in decimal and [/index]. *)
Theorem tree_index_member_lines self s :
  let line level (row : Z * pystr) :=
    u "   " ++ level ++ u "/" ++ str_int (fst row) ++ u "/index" ++ [LF] in
  (forall root,
      fst (gen_gubernias self root s) = Ok tt ->
      snd (gen_gubernias self root s) (root_dir self ++ [index_filename])
      = Some (File (tree_doc root_title
                             (concat (map (line (u "gubernia"))
                                          (select_gubernias (cur self))))
                             2)))
  /\ (forall g_id g_name pdir,
         fst (gen_uezds self g_id g_name pdir s) = Ok tt ->
         snd (gen_uezds self g_id g_name pdir s) (pdir ++ [index_filename])
         = Some (File (tree_doc g_name
                                (concat (map (line (u "uezd"))
                                             (select_uezds (cur self) g_id)))
                                2)))
  /\ (forall u_id u_name pdir,
         fst (gen_volosts self u_id u_name pdir s) = Ok tt ->
         snd (gen_volosts self u_id u_name pdir s) (pdir ++ [index_filename])
         = Some (File (tree_doc u_name
                                (concat (map (line (u "volost"))
                                             (select_volosts (cur self)
                                                             u_id)))
                                1)))
  /\ (forall v_id v_name pdir,
         fst (gen_localities self v_id v_name pdir s) = Ok tt ->
         snd (gen_localities self v_id v_name pdir s)
             (pdir ++ [index_filename])
         = Some (File (tree_doc v_name
                                (concat (map (line (u "locality"))
                                             (select_localities (cur self)
                                                                v_id)))
                                1))).
Proof.
  cbv zeta. split; [|split; [|split]]; intros.
  - level_lines (u "gubernia").
  - level_lines (u "uezd").
  - level_lines (u "volost").
  - level_lines (u "locality").
Qed.

Lemma tree_index_member_lines_witness :
  snd (gen_gubernias Sample.self (root_dir Sample.self) Sample.empty_fs)
      (root_dir Sample.self ++ [index_filename])
  = Some (File (tree_doc root_title
                         (u "   gubernia/1/index" ++ [LF])
                         2)).
Proof.
  refine (proj1 (tree_index_member_lines Sample.self Sample.empty_fs)
                (root_dir Sample.self) _).
  vm_compute. reflexivity.
Defined.

Lemma childless_level self level sub title maxdepth pdir s :
  is_dir (s pdir) = true ->
  is_dir (s (pdir ++ [index_filename])) = false ->
  fst (level_walk self level [] sub title maxdepth pdir s) = Ok tt
  /\ forall q,
      snd (level_walk self level [] sub title maxdepth pdir s) q
      = if path_eqb q (pdir ++ [index_filename])
        then Some (File (tree_doc title [] maxdepth))
        else s q.
Proof.
  intros Hd Hn. unfold level_walk. rewrite bind_run. cbn [for_each ret].
  rewrite tree_rst_doc. unfold write_rst, file_write, os_write.
  rewrite removelast_last, Hd, Hn.
  change (negb (path_eqb (pdir ++ [index_filename]) [])) with
    (negb (path_eqb (pdir ++ [index_filename]) [])).
  destruct (path_eqb (pdir ++ [index_filename]) []) eqn:E.
  - apply path_eqb_eq in E. destruct pdir; discriminate E.
  - cbn. auto.
Qed.

(** X15: a province without districts, a district without cantons and a
    canton without localities still get their index: in an existing
    directory that holds no directory named index.rst, the level ends
    normally, writes the tree index with an empty member list, and changes
    nothing else. *)
Theorem childless_levels_get_an_empty_index self id name pdir s :
  is_dir (s pdir) = true ->
  is_dir (s (pdir ++ [index_filename])) = false ->
  (select_uezds (cur self) id = [] ->
   fst (gen_uezds self id name pdir s) = Ok tt
   /\ forall q, snd (gen_uezds self id name pdir s) q
                = if path_eqb q (pdir ++ [index_filename])
                  then Some (File (tree_doc name [] 2))
                  else s q)
  /\ (select_volosts (cur self) id = [] ->
      fst (gen_volosts self id name pdir s) = Ok tt
      /\ forall q, snd (gen_volosts self id name pdir s) q
                   = if path_eqb q (pdir ++ [index_filename])
                     then Some (File (tree_doc name [] 1))
                     else s q)
  /\ (select_localities (cur self) id = [] ->
      fst (gen_localities self id name pdir s) = Ok tt
      /\ forall q, snd (gen_localities self id name pdir s) q
                   = if path_eqb q (pdir ++ [index_filename])
                     then Some (File (tree_doc name [] 1))
                     else s q).
Proof.
  intros Hd Hn. split; [|split]; intros E.
  - rewrite gen_uezds_walk, E. apply childless_level; assumption.
  - rewrite gen_volosts_walk, E. apply childless_level; assumption.
  - rewrite gen_localities_walk, E. apply childless_level; assumption.
Qed.

Lemma childless_levels_get_an_empty_index_witness :
  fst (gen_uezds Sample.self 7 (u "Province Z") [u "srv"]
                 (dirs_to [u "srv"]))
  = Ok tt.
Proof.
  refine (proj1 (proj1 (childless_levels_get_an_empty_index
                          Sample.self 7 (u "Province Z") [u "srv"]
                          (dirs_to [u "srv"]) _ _) _));
    reflexivity.
Defined.

Section Ids.
Variables (self : GPeasantSphinx) (level : pystr).
Variable sub : Z -> pystr -> path -> M unit.
Hypothesis sub_well_formed :
  forall i n c s, well_formed s -> well_formed (snd (sub i n c s)).
Hypothesis sub_keeps :
  forall i n c s,
    well_formed s -> fst (sub i n c s) = Ok tt ->
    keeps_outside c s (snd (sub i n c s)).
Variable pdir : path.

Local Abbreviation child x := (pdir ++ [level; str_int (fst x)]).

Local Abbreviation body :=
  (fun '(i, n) acc =>
     let acc :=
       acc ++ format3 (level ++ u "/" ++ str_int i ++ u "/index" ++ [LF]) in
     let child_dir := pdir ++ [level; str_int i] in
     bind (make_dirs self child_dir)
          (fun _ => bind (sub i n child_dir) (fun _ => ret acc))).

Lemma step_facts x acc s r t :
  well_formed s ->
  body x acc s = (Ok r, t) ->
  s (child x) = None /\ well_formed t /\ keeps s t
  /\ t (child x) = Some Dir.
Proof.
  intros Hwf E.
  destruct (level_step self level sub (fun _ _ _ _ => False)
              sub_well_formed sub_keeps
              (fun i n c s0 _ _ p nd (F : False) => match F with end)
              pdir x acc s r t Hwf E) as (Hwft & Hk & Hd & _).
  split; [|auto]. destruct x as [i n]. unfold bind in E.
  destruct (make_dirs self (pdir ++ [level; str_int i]) s)
    as [[[]|f] s1] eqn:E1; [|discriminate].
  apply (make_dirs_effect self (pdir ++ [level; str_int i]) s).
  rewrite E1. reflexivity.
Qed.

Lemma loop_children_new xs acc s r t :
  well_formed s ->
  for_each xs body acc s = (Ok r, t) ->
  forall y, In y xs -> s (child y) = None.
Proof.
  revert acc s. induction xs as [|x xs IH]; intros acc s Hwf H y Hy;
    [contradiction|].
  cbn [for_each] in H. rewrite bind_run in H.
  destruct (body x acc s) as [[a|f] s1] eqn:E; [|discriminate].
  destruct (step_facts x acc s a s1 Hwf E) as (Hn & Hwf1 & Hk & Hd).
  destruct Hy as [<-|Hy]; [exact Hn|].
  pose proof (IH a s1 Hwf1 H y Hy) as Hy1.
  destruct (s (child y)) eqn:Esy; [|reflexivity].
  rewrite (Hk (child y)) in Hy1 by congruence. congruence.
Qed.

Lemma loop_ids_distinct xs acc s r t :
  well_formed s ->
  for_each xs body acc s = (Ok r, t) ->
  NoDup (map fst xs).
Proof.
  revert acc s. induction xs as [|x xs IH]; intros acc s Hwf H;
    [constructor|].
  cbn [for_each] in H. rewrite bind_run in H.
  destruct (body x acc s) as [[a|f] s1] eqn:E; [|discriminate].
  destruct (step_facts x acc s a s1 Hwf E) as (Hn & Hwf1 & Hk & Hd).
  cbn [map]. constructor; [|apply (IH a s1 Hwf1 H)].
  intros Hin. apply in_map_iff in Hin. destruct Hin as (y & Ey & Hy).
  pose proof (loop_children_new xs a s1 r t Hwf1 H y Hy) as Hnew.
  rewrite Ey in Hnew. congruence.
Qed.

Lemma level_walk_ids_distinct rows title maxdepth s :
  well_formed s ->
  fst (level_walk self level rows sub title maxdepth pdir s) = Ok tt ->
  NoDup (map fst rows).
Proof.
  intros Hwf. unfold level_walk. rewrite bind_run.
  destruct (for_each rows body [] s) as [[l|f] t0] eqn:E;
    [|cbn; intros H; discriminate H].
  intros _. apply (loop_ids_distinct rows [] s l t0 Hwf E).
Qed.

End Ids.

(** X16: on a well-formed disk a level of the walk ends normally only if
    the ids of the children it lists are pairwise distinct: a second child
    with an id already used finds its directory in place, and [make_dirs]
    exits. *)
Theorem levels_need_distinct_ids self id name pdir s :
  well_formed s ->
  (fst (gen_gubernias self (root_dir self) s) = Ok tt ->
   NoDup (map fst (select_gubernias (cur self))))
  /\ (fst (gen_uezds self id name pdir s) = Ok tt ->
      NoDup (map fst (select_uezds (cur self) id)))
  /\ (fst (gen_volosts self id name pdir s) = Ok tt ->
      NoDup (map fst (select_volosts (cur self) id)))
  /\ (fst (gen_localities self id name pdir s) = Ok tt ->
      NoDup (map fst (select_localities (cur self) id))).
Proof.
  intros Hwf. split; [|split; [|split]].
  - rewrite gen_gubernias_walk.
    apply (level_walk_ids_distinct self (u "gubernia") (gen_uezds self));
      [| |exact Hwf].
    + intros i n c s' Hs.
      destruct (sound_gen_uezds [] self i n c eq_refl) as (_ & W & _).
      apply W, Hs.
    + intros i n c s' Hs H. apply gen_uezds_effect; assumption.
  - rewrite gen_uezds_walk.
    apply (level_walk_ids_distinct self (u "uezd") (gen_volosts self));
      [| |exact Hwf].
    + intros i n c s' Hs.
      destruct (sound_gen_volosts [] self i n c eq_refl) as (_ & W & _).
      apply W, Hs.
    + intros i n c s' Hs H. apply gen_volosts_effect; assumption.
  - rewrite gen_volosts_walk.
    apply (level_walk_ids_distinct self (u "volost") (gen_localities self));
      [| |exact Hwf].
    + intros i n c s' Hs.
      destruct (sound_gen_localities [] self i n c eq_refl) as (_ & W & _).
      apply W, Hs.
    + intros i n c s' Hs H. apply gen_localities_effect; assumption.
  - rewrite gen_localities_walk.
    apply (level_walk_ids_distinct self (u "locality") (gen_datasheets self));
      [| |exact Hwf].
    + apply gen_datasheets_well_formed.
    + intros i n c s' _ H. apply gen_datasheets_effect, H.
Qed.

Lemma levels_need_distinct_ids_witness :
  NoDup (map fst (select_gubernias (cur Sample.self))).
Proof.
  refine (proj1 (levels_need_distinct_ids
                   Sample.self 1 (u "Province A") [u "srv"]
                   Sample.empty_fs _) _).
  - intros p x H. exfalso. apply H. reflexivity.
  - vm_compute. reflexivity.
Defined.
